(** * phystone.find_pairs : pairing atoms of two ASE structures

    A shallow embedding of [src/phystone/find_pairs.py] and the properties
    of its two functions, [find_ads_slab_pairs] and [find_symmetric_pairs].

    Python floats (and numpy's float64) are IEEE 754 binary64 numbers: they
    are embedded as Rocq's primitive [float], whose operations are the same
    binary64 operations.  Python exceptions are embedded in an error monad;
    Python [for] loops that grow a list are folds threading the list. *)

From Stdlib Require Import ZArith List Bool String Lia.
From Stdlib Require Import Floats.
Import ListNotations.

Local Open Scope Z_scope.
#[local] Set Warnings "-inexact-float".

(** ** The Python runtime the module relies on *)

Module Py.

(** The exceptions the two functions can let escape. *)
Inductive exn : Set :=
| IndexError
| ValueError.

Inductive result (A : Type) : Type :=
| Ok (a : A)
| Raise (e : exn).

Arguments Ok {A} a.
Arguments Raise {A} e.

Definition bind {A B : Type} (c : result A) (k : A -> result B) : result B :=
  match c with
  | Ok a => k a
  | Raise e => Raise e
  end.

(** A value stored in one of the heterogeneous lists of the source:
    an [int], a [float] or a [str]. *)
Inductive value : Type :=
| Int (z : Z)
| Float (f : float)
| Str (s : string).

(** [l[i]] on a sequence: negative indices count from the end, and an
    index outside [-len l, len l) raises [IndexError]. *)
Definition getitem {A : Type} (l : list A) (i : Z) : result A :=
  let n := Z.of_nat (List.length l) in
  let j := if i <? 0 then i + n else i in
  if (0 <=? j) && (j <? n) then
    match nth_error l (Z.to_nat j) with
    | Some a => Ok a
    | None => Raise IndexError
    end
  else Raise IndexError.

(** [for x in xs: st = body(st, x)], an exception of the body leaving
    the loop. *)
Fixpoint for_each {A S : Type} (xs : list A) (body : S -> A -> result S)
         (st : S) : result S :=
  match xs with
  | [] => Ok st
  | x :: rest => bind (body st x) (for_each rest body)
  end.

(** [x ** 2] on a float64 coordinate: the rounded product, an infinity
    on overflow. *)
Definition pow2 (x : float) : float := (x * x)%float.

(** [math.sqrt]: a negative argument is a domain error. *)
Definition math_sqrt (x : float) : result float :=
  if (x <? 0)%float then Raise ValueError else Ok (sqrt x).

(** [numpy.isclose(a, b)] on two numbers, with numpy's default
    [rtol = 1e-5], [atol = 1e-8] and [equal_nan = False]:
    [(abs(a - b) <= atol + rtol * abs(b)) & isfinite(b) | (a == b)]. *)
Definition rtol : float := 1e-5%float.
Definition atol : float := 1e-8%float.

Definition isclose (a b : float) : bool :=
  ((abs (a - b) <=? atol + rtol * abs b)%float && is_finite b)
  || (a =? b)%float.

(** A [dict] with integer keys, in insertion order.  Assigning to a key
    that is present replaces its value where the key stands; assigning to
    a new key adds it at the end. *)
Definition dict (V : Type) : Type := list (Z * V).

Fixpoint setitem {V : Type} (d : dict V) (k : Z) (v : V) : dict V :=
  match d with
  | [] => [(k, v)]
  | (k', v') :: rest =>
      if k' =? k then (k', v) :: rest else (k', v') :: setitem rest k v
  end.

Definition items {V : Type} (d : dict V) : list (Z * V) := d.

Definition keys {V : Type} (d : dict V) : list Z := map fst d.

End Py.

Import Py.

Notation "x <- c ;; k" := (Py.bind c (fun x => k))
  (at level 61, c at next level, right associativity).

(** ** The ASE objects *)

(** An [ase.Atom] as the module uses it: [.index] and [.position]. *)
Record Atom : Type := mkAtom {
  index : Z;
  position : list float
}.

(** An [ase.Atoms] object: the atoms it iterates over, and the value of
    [get_center_of_mass()], which ASE computes and the module only reads. *)
Record Atoms : Type := mkAtoms {
  atoms : list Atom;
  get_center_of_mass : list float
}.

(** ** find_ads_slab_pairs *)

(** The row [[index, distance_0, distance_1, distance_2, distance_3]] kept
    for every atom: [row_index] is [loc[0]], [row_d0] .. [row_d3] are
    [loc[1]] .. [loc[4]]. *)
Record row : Type := mkRow {
  row_index : Z;
  row_d0 : float;
  row_d1 : float;
  row_d2 : float;
  row_d3 : float
}.

Definition distance_0 (loc : Atom) : result float :=
  p0 <- getitem (position loc) 0 ;;
  p1 <- getitem (position loc) 1 ;;
  p2 <- getitem (position loc) 2 ;;
  math_sqrt (pow2 p0 + pow2 p1 + pow2 p2)%float.

Definition distance_1 (loc : Atom) : result float :=
  p0 <- getitem (position loc) 0 ;;
  p1 <- getitem (position loc) 1 ;;
  p2 <- getitem (position loc) 2 ;;
  math_sqrt (pow2 (p0 - 10) + pow2 (p1 - 10) + pow2 p2)%float.

Definition distance_2 (loc : Atom) : result float :=
  p0 <- getitem (position loc) 0 ;;
  p1 <- getitem (position loc) 1 ;;
  p2 <- getitem (position loc) 2 ;;
  math_sqrt (pow2 (p0 - 0) + pow2 (p1 - 10) + pow2 p2)%float.

Definition distance_3 (loc : Atom) : result float :=
  p0 <- getitem (position loc) 0 ;;
  p1 <- getitem (position loc) 1 ;;
  p2 <- getitem (position loc) 2 ;;
  math_sqrt (pow2 (p0 - 10) + pow2 (p1 - 0) + pow2 p2)%float.

(** The body of the first two loops: the row of one atom. *)
Definition reference_row (loc : Atom) : result row :=
  d0 <- distance_0 loc ;;
  d1 <- distance_1 loc ;;
  d2 <- distance_2 loc ;;
  d3 <- distance_3 loc ;;
  Ok (mkRow (index loc) d0 d1 d2 d3).

Definition reference_rows (structure : list Atom) : result (list row) :=
  for_each structure
    (fun positions loc => r <- reference_row loc ;; Ok (positions ++ [r]))
    [].

(** The condition of the inner [if]. *)
Definition within_tol (difference_tol : float) (s_loc a_loc : row) : bool :=
  (abs (row_d0 s_loc - row_d0 a_loc) <=? difference_tol)%float &&
  (abs (row_d1 s_loc - row_d1 a_loc) <=? difference_tol)%float &&
  (abs (row_d2 s_loc - row_d2 a_loc) <=? difference_tol)%float &&
  (abs (row_d3 s_loc - row_d3 a_loc) <=? difference_tol)%float.

(** What [mult] receives for a matching atom of [ads]. *)
Definition mult_entry (s_loc a_loc : row) : list value :=
  [Int (row_index a_loc);
   Float (row_d0 s_loc - row_d0 a_loc)%float;
   Float (row_d1 s_loc - row_d1 a_loc)%float].

(** The inner loop over [ads_positions]. *)
Definition collect_mult (difference_tol : float) (s_loc : row)
           (ads_positions : list row) : result (list (list value)) :=
  for_each ads_positions
    (fun mult a_loc =>
       Ok (if within_tol difference_tol s_loc a_loc
           then mult ++ [mult_entry s_loc a_loc]
           else mult))
    [].

(** The sentinel of an atom without a match. *)
Definition sentinel : value := Str "n".

Definition placeholder (mult : list (list value)) : list (list value) :=
  match mult with
  | [] => mult ++ [[sentinel]]
  | _ :: _ => mult
  end.

(** The body of the outer loop over [slab_positions]. *)
Definition pair_step (difference_tol : float) (ads_positions : list row)
           (pair : list (Z * value)) (s_loc : row)
  : result (list (Z * value)) :=
  mult <- collect_mult difference_tol s_loc ads_positions ;;
  let mult := placeholder mult in
  first <- getitem mult 0 ;;
  chosen <- getitem first 0 ;;
  Ok (pair ++ [(row_index s_loc, chosen)]).

Definition find_ads_slab_pairs (slab ads : list Atom) (difference_tol : float)
  : result (list (Z * value)) :=
  slab_positions <- reference_rows slab ;;
  ads_positions <- reference_rows ads ;;
  for_each slab_positions (pair_step difference_tol ads_positions) [].

(** ** find_symmetric_pairs *)

(** The three-element list stored for an index. *)
Definition vec3 : Type := (float * float * float)%type.

(** [[slab[dex].position[k] - center_of_mass[k] for k in 0, 1, 2]]. *)
Definition displacement (slab : Atoms) (dex : Z) : result vec3 :=
  let center_of_mass := get_center_of_mass slab in
  a <- getitem (atoms slab) dex ;;
  p0 <- getitem (position a) 0 ;;
  c0 <- getitem center_of_mass 0 ;;
  a <- getitem (atoms slab) dex ;;
  p1 <- getitem (position a) 1 ;;
  c1 <- getitem center_of_mass 1 ;;
  a <- getitem (atoms slab) dex ;;
  p2 <- getitem (position a) 2 ;;
  c2 <- getitem center_of_mass 2 ;;
  Ok ((p0 - c0)%float, (p1 - c1)%float, (p2 - c2)%float).

(** The loops filling [distances_1] and [distances_2]. *)
Definition fill_distances (slab : Atoms) (atom_index_set : list Z)
  : result (dict vec3) :=
  for_each atom_index_set
    (fun distances dex =>
       d <- displacement slab dex ;; Ok (setitem distances dex d))
    [].

(** The condition of the innermost [if]. *)
Definition symmetric (first_distance second_distance : vec3) : bool :=
  let '(f0, f1, f2) := first_distance in
  let '(s0, s1, s2) := second_distance in
  isclose f0 (s0 * -1)%float &&
  isclose f1 (s1 * -1)%float &&
  isclose f2 (s2 * -1)%float.

Definition find_symmetric_pairs (slab : Atoms)
           (atom_index_set_1 atom_index_set_2 : list Z)
  : result (list (Z * Z)) :=
  distances_1 <- fill_distances slab atom_index_set_1 ;;
  distances_2 <- fill_distances slab atom_index_set_2 ;;
  for_each (items distances_1)
    (fun pairs first =>
       for_each (items distances_2)
         (fun pairs second =>
            Ok (if symmetric (snd first) (snd second)
                then pairs ++ [(fst first, fst second)]
                else pairs))
         pairs)
    [].

(** ** Definitions used to state the properties *)

(** [traverse f xs]: [f] on every element from left to right, stopping at
    the first exception. *)
Fixpoint traverse {A B : Type} (f : A -> result B) (xs : list A)
  : result (list B) :=
  match xs with
  | [] => Ok []
  | x :: rest => y <- f x ;; ys <- traverse f rest ;; Ok (y :: ys)
  end.

(** A position with three coordinates. *)
Definition well_formed (loc : Atom) : Prop :=
  List.length (position loc) = 3%nat.

(** The second element of the output entry of [s_loc]: the index of the
    first row of [ads_positions] that passes the test, or the sentinel. *)
Definition choice (difference_tol : float) (ads_positions : list row)
           (s_loc : row) : value :=
  match filter (within_tol difference_tol s_loc) ads_positions with
  | [] => sentinel
  | a_loc :: _ => Int (row_index a_loc)
  end.

(** The test the specification describes: only the distances to the three
    reference points off the origin are compared. *)
Definition off_origin_within (tolerance : float) (s a : row) : bool :=
  (abs (row_d1 s - row_d1 a) <=? tolerance)%float &&
  (abs (row_d2 s - row_d2 a) <=? tolerance)%float &&
  (abs (row_d3 s - row_d3 a) <=? tolerance)%float.

(** The four distances of a row are finite numbers. *)
Definition finite_row (r : row) : bool :=
  is_finite (row_d0 r) && is_finite (row_d1 r) &&
  is_finite (row_d2 r) && is_finite (row_d3 r).

Definition finite_fingerprint (loc : Atom) : Prop :=
  exists r, reference_row loc = Ok r /\ finite_row r = true.

(** The distinct elements of a sequence, in the order of their first
    occurrences. *)
Fixpoint distinct (s : list Z) : list Z :=
  match s with
  | [] => []
  | k :: rest => k :: filter (fun j => negb (j =? k)) (distinct rest)
  end.

Definition mem (k : Z) (ks : list Z) : bool := existsb (Z.eqb k) ks.

(** An index with its displacement. *)
Definition entry (slab : Atoms) (dex : Z) : result (Z * vec3) :=
  d <- displacement slab dex ;; Ok (dex, d).

(** [d[k]] read as an option, and a sequence of assignments [d[k] = v]. *)
Definition lookup {V : Type} (d : dict V) (k : Z) : option V :=
  match find (fun e => fst e =? k) d with
  | Some e => Some (snd e)
  | None => None
  end.

Definition write_all {V : Type} (writes : list (Z * V)) (d : dict V)
  : dict V :=
  fold_left (fun d w => setitem d (fst w) (snd w)) writes d.

(** The value of the last assignment to [k] in a sequence of assignments. *)
Definition last_write {V : Type} (writes : list (Z * V)) (k : Z)
  : option V :=
  lookup (rev writes) k.

(** An index the structure accepts, and a structure whose positions and
    centre of mass have three coordinates. *)
Definition in_range (slab : Atoms) (dex : Z) : Prop :=
  - Z.of_nat (List.length (atoms slab)) <= dex
  < Z.of_nat (List.length (atoms slab)).

Definition well_formed_atoms (slab : Atoms) : Prop :=
  Forall well_formed (atoms slab) /\
  List.length (get_center_of_mass slab) = 3%nat.

(** The specification's test: each coordinate of the first displacement is
    approximately the negation of the same coordinate of the second. *)
Definition approximate_negation (d1 d2 : vec3) : bool :=
  let '(x1, y1, z1) := d1 in
  let '(x2, y2, z2) := d2 in
  isclose x1 (- x2)%float && isclose y1 (- y2)%float &&
  isclose z1 (- z2)%float.

(** The specification's premise: the atom at [p] is exactly the point
    reflection of the atom at [q] through [center], coordinate by
    coordinate: [p - center] equals [-(q - center)]. *)
Definition reflection_through (center p q : list float) : bool :=
  match center, p, q with
  | [c0; c1; c2], [x; y; z], [x'; y'; z'] =>
      (x - c0 =? - (x' - c0))%float &&
      (y - c1 =? - (y' - c1))%float &&
      (z - c2 =? - (z' - c2))%float
  | _, _, _ => false
  end.

(** The first displacement is exactly the negation of the second. *)
Definition exact_negation (d1 d2 : vec3) : bool :=
  let '(x1, y1, z1) := d1 in
  let '(x2, y2, z2) := d2 in
  (x1 =? - x2)%float && (y1 =? - y2)%float && (z1 =? - z2)%float.


(** Two outcomes with the same pairs, or two exceptions. *)
Definition same_pairs (r r' : result (list (Z * Z))) : Prop :=
  match r, r' with
  | Ok l, Ok l' => forall p, In p l <-> In p l'
  | Raise _, Raise _ => True
  | _, _ => False
  end.

(** The sign bit of a binary64 number is clear, or the number is a NaN. *)
Definition sign_clear (x : spec_float) : bool :=
  match x with
  | S754_zero s | S754_infinity s | S754_finite s _ _ => negb s
  | S754_nan => true
  end.

(** Inputs of the examples. *)
Definition origin_slab : list Atom := [mkAtom 0 [0; 0; 0]%float].
Definition raised_ads : list Atom := [mkAtom 7 [0; 0; 0.5]%float].
Definition close_pair : list Atom :=
  [mkAtom 0 [0; 0; 0]%float; mkAtom 1 [0.125; 0; 0]%float].
Definition undefined_atom : list Atom := [mkAtom 0 [nan; 0; 0]%float].
Definition scenario_slab : list Atom := [mkAtom 5 [0; 0; 0]%float].
Definition scenario_ads : list Atom :=
  [mkAtom 9 [0; 0; 0]%float; mkAtom 10 [5; 5; 5]%float].

(** The scenario of the specification: two atoms mirrored through the
    centre of mass; and a structure where two atoms mirror the same one. *)
Definition mirror : Atoms :=
  mkAtoms [mkAtom 0 [1; 2; 3]%float; mkAtom 1 [-1; -2; -3]%float]
          [0; 0; 0]%float.
Definition double_mirror : Atoms :=
  mkAtoms [mkAtom 0 [1; 2; 3]%float; mkAtom 1 [-1; -2; -3]%float;
           mkAtom 2 [-1; -2; -3]%float]
          [0; 0; 0]%float.

(** ** Definitions used to state further properties *)

(** A position whose first three coordinates can be read, and one that is
    too short for that. *)
Definition readable (loc : Atom) : Prop :=
  (3 <= List.length (position loc))%nat.

Definition short (loc : Atom) : Prop :=
  (List.length (position loc) < 3)%nat.

(** The image of an atom in the plane z = 0, and the images of the atoms a
    test selects. *)
Definition mirror_z (loc : Atom) : Atom :=
  match position loc with
  | x :: y :: z :: rest => mkAtom (index loc) (x :: y :: (- z)%float :: rest)
  | _ => loc
  end.

Definition mirror_where (flip : Atom -> bool) (loc : Atom) : Atom :=
  if flip loc then mirror_z loc else loc.

(** An atom under another index, and an output under other indices. *)
Definition reindex (f : Z -> Z) (loc : Atom) : Atom :=
  mkAtom (f (index loc)) (position loc).

Definition reindex_row (f : Z -> Z) (r : row) : row :=
  mkRow (f (row_index r)) (row_d0 r) (row_d1 r) (row_d2 r) (row_d3 r).

Definition reindex_value (g : Z -> Z) (v : value) : value :=
  match v with
  | Int j => Int (g j)
  | _ => v
  end.

Definition relabel (f g : Z -> Z) (pair : list (Z * value))
  : list (Z * value) :=
  map (fun entry => (f (fst entry), reindex_value g (snd entry))) pair.

(** One of the three coordinates read is a NaN. *)
Definition has_nan_coordinate (loc : Atom) : bool :=
  existsb is_nan (firstn 3 (position loc)).

Definition nan_vec (d : vec3) : bool :=
  let '(x, y, z) := d in is_nan x || is_nan y || is_nan z.

(** Further inputs of examples. *)
Definition short_atom : list Atom := [mkAtom 3 [1; 2]%float].
Definition mirrored_ads : list Atom :=
  [mkAtom 4 [0; 0; -0.5]%float; mkAtom 7 [0; 0; 0.5]%float].
Definition twin_slab : list Atom :=
  [mkAtom 0 [0; 0; 0]%float; mkAtom 1 [5; 5; 5]%float;
   mkAtom 2 [0; 0; 0]%float].

(** Two atoms mirrored through a centre of mass off the origin. *)
Definition offset_mirror : Atoms :=
  mkAtoms [mkAtom 0 [2; 3; 4]%float; mkAtom 1 [0; -1; -2]%float]
          [1; 1; 1]%float.

(** An atom with its position cut to three coordinates, and an input with
    a fourth coordinate. *)
Definition cut3 (loc : Atom) : Atom :=
  mkAtom (index loc) (firstn 3 (position loc)).

Definition long_ads : list Atom :=
  [mkAtom 9 [0; 0; 0; 100]%float; mkAtom 10 [5; 5; 5; 0]%float].

Definition undefined_mirror : Atoms :=
  mkAtoms [mkAtom 0 [nan; 2; 3]%float; mkAtom 1 [-1; -2; -3]%float]
          [0; 0; 0]%float.

(** ** Facts on binary64 arithmetic *)

Module FloatFacts.

Lemma binary_round_aux_sign_clear (m e : Z) (l : location) :
  sign_clear (binary_round_aux prec emax false m e l) = true.
Proof.
  unfold binary_round_aux.
  destruct (shr_fexp prec emax m e l) as [mrs e'].
  destruct (shr_fexp prec emax _ e' loc_Exact) as [mrs2 e2].
  destruct (shr_m mrs2); [reflexivity | | reflexivity].
  destruct (Z.leb e2 _); reflexivity.
Qed.

Lemma SFmul_self_sign_clear (x : spec_float) :
  sign_clear (SF64mul x x) = true.
Proof.
  destruct x as [s | s | | s m e]; simpl;
    rewrite ?xorb_nilpotent; try reflexivity.
  apply binary_round_aux_sign_clear.
Qed.

Lemma SFadd_sign_clear (x y : spec_float) :
  sign_clear x = true -> sign_clear y = true ->
  sign_clear (SF64add x y) = true.
Proof.
  destruct x as [[] | [] | | [] mx ex]; try discriminate;
    destruct y as [[] | [] | | [] my ey]; try discriminate;
    intros _ _; try reflexivity.
  unfold SF64add, SFadd, cond_Zopp, binary_normalize.
  cbn [Z.add]. unfold binary_round.
  destruct (shl_align _ _ _) as [mz ez].
  apply binary_round_aux_sign_clear.
Qed.

Lemma pow2_sign_clear (x : float) : sign_clear (Prim2SF (pow2 x)) = true.
Proof. unfold pow2. rewrite mul_spec. apply SFmul_self_sign_clear. Qed.

Lemma sum_of_squares_sign_clear (a b c : float) :
  sign_clear (Prim2SF (pow2 a + pow2 b + pow2 c)) = true.
Proof.
  rewrite !add_spec.
  repeat apply SFadd_sign_clear; apply pow2_sign_clear.
Qed.

Lemma sign_clear_not_negative (x : float) :
  sign_clear (Prim2SF x) = true -> (x <? 0)%float = false.
Proof.
  rewrite ltb_spec. change (Prim2SF 0) with (S754_zero false).
  destruct (Prim2SF x) as [s | s | | s m e]; simpl;
    try reflexivity; destruct s; try discriminate; reflexivity.
Qed.

(** The square root of a sum of three squares is never a domain error. *)
Lemma math_sqrt_sum_of_squares (a b c : float) :
  math_sqrt (pow2 a + pow2 b + pow2 c) =
  Ok (sqrt (pow2 a + pow2 b + pow2 c)).
Proof.
  unfold math_sqrt.
  rewrite sign_clear_not_negative by apply sum_of_squares_sign_clear.
  reflexivity.
Qed.

(** A finite number is a zero or has a mantissa and an exponent. *)
Lemma is_finite_cases (x : float) :
  is_finite x = true ->
  (exists s, Prim2SF x = S754_zero s) \/
  (exists s m e, Prim2SF x = S754_finite s m e).
Proof.
  unfold is_finite, is_nan, is_infinity.
  rewrite !eqb_spec, abs_spec.
  change (Prim2SF infinity) with (S754_infinity false).
  destruct (Prim2SF x) as [s | [] | | s m e]; simpl; try discriminate;
    intros _; [left | right]; eauto.
Qed.

(** [x - x] is [+0] for a finite [x]. *)
Lemma sub_diag_finite (x : float) :
  is_finite x = true -> Prim2SF (x - x) = S754_zero false.
Proof.
  intros H. rewrite sub_spec.
  destruct (is_finite_cases x H) as [[s ->] | [s [m [e ->]]]].
  - destruct s; reflexivity.
  - unfold SF64sub, SFsub. rewrite Z.sub_diag. reflexivity.
Qed.

(** A finite number is within any non-negative tolerance of itself. *)
Lemma self_within (x tol : float) :
  is_finite x = true -> (0 <=? tol)%float = true ->
  (abs (x - x) <=? tol)%float = true.
Proof.
  intros Hx Htol. rewrite leb_spec in *.
  rewrite abs_spec, sub_diag_finite by exact Hx.
  exact Htol.
Qed.

(** Multiplying by [-1] flips the sign bit and changes nothing else. *)
Lemma digits2_pos_iter_xO (m : positive) (n : nat) :
  Zpos (digits2_pos (Nat.iter n xO m)) = Zpos (digits2_pos m) + Z.of_nat n.
Proof.
  induction n as [| n IH]; [simpl; lia |].
  rewrite Nat2Z.inj_succ. simpl Nat.iter. cbn [digits2_pos].
  rewrite Pos2Z.inj_succ. lia.
Qed.

Lemma shr_1_iter_xO (n : nat) (m : positive) :
  Nat.iter n shr_1 (Build_shr_record (Zpos (Nat.iter n xO m)) false false)
  = Build_shr_record (Zpos m) false false.
Proof.
  induction n as [| n IH]; [reflexivity |].
  rewrite Nat.iter_succ_r. cbn [Nat.iter shr_1 orb]. exact IH.
Qed.

Lemma SFmul_neg_one (x : spec_float) :
  valid_binary x = true ->
  SF64mul x (S754_finite true 4503599627370496 (-52)) = SFopp x.
Proof.
  destruct x as [s | s | | s m e]; intros Hv; simpl;
    rewrite ?xorb_true_r; try reflexivity.
  simpl in Hv. unfold bounded, canonical_mantissa in Hv.
  apply andb_prop in Hv as [Hc Hb]. apply Z.eqb_eq in Hc.
  replace (m * 4503599627370496)%positive with (Nat.iter 52 xO m)
    by (rewrite Pos.mul_comm; reflexivity).
  unfold binary_round_aux, shr_fexp.
  change (Zdigits2 (Z.pos (Nat.iter 52 xO m)))
    with (Z.pos (digits2_pos (Nat.iter 52 xO m))).
  rewrite digits2_pos_iter_xO.
  replace (Z.pos (digits2_pos m) + Z.of_nat 52 + (e + -52))
    with (Z.pos (digits2_pos m) + e) by lia.
  rewrite Hc.
  replace (e - (e + -52)) with 52 by lia.
  change (shr (shr_record_of_loc (Z.pos (Nat.iter 52 xO m)) loc_Exact)
              (e + -52) 52)
    with (Nat.iter 52 shr_1
            (Build_shr_record (Z.pos (Nat.iter 52 xO m)) false false),
          e + -52 + 52).
  rewrite shr_1_iter_xO.
  replace (e + -52 + 52) with e by lia.
  cbn [shr_m loc_of_shr_record round_nearest_even Zdigits2].
  rewrite Hc, Z.sub_diag. cbn [shr shr_record_of_loc shr_m].
  rewrite Hb. reflexivity.
Qed.

Lemma mul_neg_one (x : float) : (x * -1)%float = (- x)%float.
Proof.
  apply Prim2SF_inj. rewrite mul_spec, opp_spec.
  change (Prim2SF (-1)) with (S754_finite true 4503599627370496 (-52)).
  apply SFmul_neg_one, Prim2SF_valid.
Qed.

End FloatFacts.

(** ** Facts on the runtime: indexing, loops, dictionaries *)

Section Runtime.

Context {A B : Type}.

Lemma getitem_triple (a b c : A) :
  getitem [a; b; c] 0 = Ok a /\
  getitem [a; b; c] 1 = Ok b /\
  getitem [a; b; c] 2 = Ok c.
Proof. repeat split; reflexivity. Qed.

(** A loop that appends one computed element per iteration. *)
Lemma for_each_collect (f : A -> result B) (xs : list A) (acc : list B) :
  for_each xs (fun acc x => r <- f x ;; Ok (acc ++ [r])) acc =
  (ys <- traverse f xs ;; Ok (acc ++ ys)).
Proof.
  revert acc. induction xs as [| x xs IH]; intros acc; simpl.
  - now rewrite app_nil_r.
  - destruct (f x) as [y | e]; simpl; [| reflexivity].
    rewrite IH. destruct (traverse f xs) as [ys | e]; simpl;
      [| reflexivity].
    now rewrite <- app_assoc.
Qed.

(** A loop that appends an element when a test passes. *)
Lemma for_each_filter (p : A -> bool) (g : A -> B) (xs : list A)
      (acc : list B) :
  for_each xs (fun acc x => Ok (if p x then acc ++ [g x] else acc)) acc =
  Ok (acc ++ map g (filter p xs)).
Proof.
  revert acc. induction xs as [| x xs IH]; intros acc; simpl.
  - now rewrite app_nil_r.
  - rewrite IH. destruct (p x); simpl; [| reflexivity].
    now rewrite <- app_assoc.
Qed.

(** A loop whose body always appends one element. *)
Lemma for_each_step (g : A -> B) (body : list B -> A -> result (list B))
      (xs : list A) (acc : list B) :
  (forall acc x, body acc x = Ok (acc ++ [g x])) ->
  for_each xs body acc = Ok (acc ++ map g xs).
Proof.
  intros Hbody. revert acc.
  induction xs as [| x xs IH]; intros acc; simpl.
  - now rewrite app_nil_r.
  - rewrite Hbody. simpl. rewrite IH. now rewrite <- app_assoc.
Qed.

Lemma traverse_Ok (f : A -> result B) (xs : list A) (ys : list B) :
  traverse f xs = Ok ys -> Forall2 (fun x y => f x = Ok y) xs ys.
Proof.
  revert ys. induction xs as [| x xs IH]; intros ys; simpl.
  - intros [= <-]. constructor.
  - destruct (f x) as [y | e] eqn:Ey; simpl; [| discriminate].
    destruct (traverse f xs) as [ys' | e]; simpl; [| discriminate].
    intros [= <-]. constructor; auto.
Qed.

Lemma traverse_total (f : A -> result B) (xs : list A) :
  Forall (fun x => exists y, f x = Ok y) xs ->
  exists ys, traverse f xs = Ok ys.
Proof.
  induction 1 as [| x xs [y Hy] _ [ys Hys]]; simpl.
  - now exists [].
  - rewrite Hy, Hys. simpl. now exists (y :: ys).
Qed.

Lemma Forall2_nth_error_l (R : A -> B -> Prop) (xs : list A) (ys : list B)
      (k : nat) (x : A) :
  Forall2 R xs ys -> nth_error xs k = Some x ->
  exists y, nth_error ys k = Some y /\ R x y.
Proof.
  intros H. revert k. induction H as [| x' y' xs ys Hxy _ IH]; intros k.
  - destruct k; discriminate.
  - destruct k as [| k]; simpl.
    + intros [= <-]. now exists y'.
    + apply IH.
Qed.

Lemma Forall2_In_r (R : A -> B -> Prop) (xs : list A) (ys : list B)
      (y : B) :
  Forall2 R xs ys -> In y ys -> exists x, In x xs /\ R x y.
Proof.
  induction 1 as [| x' y' xs ys Hxy _ IH]; simpl; [tauto |].
  intros [<- | Hin].
  - exists x'. auto.
  - destruct (IH Hin) as [x [Hx Hr]]. exists x. auto.
Qed.

Lemma Forall2_length_eq (R : A -> B -> Prop) (xs : list A) (ys : list B) :
  Forall2 R xs ys -> List.length ys = List.length xs.
Proof. induction 1; simpl; congruence. Qed.

End Runtime.

(** ** Facts on find_ads_slab_pairs *)

Lemma reference_row_total (loc : Atom) :
  well_formed loc ->
  exists d0 d1 d2 d3, reference_row loc = Ok (mkRow (index loc) d0 d1 d2 d3).
Proof.
  unfold well_formed. destruct loc as [i p]. simpl.
  destruct p as [| a [| b [| c [| d p]]]]; try discriminate. intros _.
  unfold reference_row, distance_0, distance_1, distance_2, distance_3.
  cbn [position index].
  destruct (getitem_triple a b c) as [-> [-> ->]]. cbn [bind].
  rewrite !FloatFacts.math_sqrt_sum_of_squares. cbn [bind].
  eauto.
Qed.

Lemma reference_row_index (loc : Atom) (r : row) :
  reference_row loc = Ok r -> row_index r = index loc.
Proof.
  unfold reference_row.
  destruct (distance_0 loc); [| discriminate].
  destruct (distance_1 loc); [| discriminate].
  destruct (distance_2 loc); [| discriminate].
  destruct (distance_3 loc); [| discriminate].
  simpl. now intros [= <-].
Qed.

Lemma reference_rows_traverse (structure : list Atom) :
  reference_rows structure = traverse reference_row structure.
Proof.
  unfold reference_rows. rewrite for_each_collect.
  destruct (traverse reference_row structure); reflexivity.
Qed.

Lemma reference_rows_total (structure : list Atom) :
  Forall well_formed structure ->
  exists rows, reference_rows structure = Ok rows /\
    Forall2 (fun loc r => reference_row loc = Ok r) structure rows.
Proof.
  intros Hwf. rewrite reference_rows_traverse.
  destruct (traverse_total reference_row structure) as [rows Hrows].
  - eapply Forall_impl; [| exact Hwf]. intros loc Hloc.
    destruct (reference_row_total loc Hloc) as [d0 [d1 [d2 [d3 H]]]]. eauto.
  - exists rows. split; [exact Hrows |]. now apply traverse_Ok.
Qed.

Lemma collect_mult_filter (difference_tol : float) (s_loc : row)
      (ads_positions : list row) :
  collect_mult difference_tol s_loc ads_positions =
  Ok (map (mult_entry s_loc)
          (filter (within_tol difference_tol s_loc) ads_positions)).
Proof. unfold collect_mult. now rewrite for_each_filter. Qed.

Lemma pair_step_choice (difference_tol : float) (ads_positions : list row)
      (pair : list (Z * value)) (s_loc : row) :
  pair_step difference_tol ads_positions pair s_loc =
  Ok (pair ++ [(row_index s_loc, choice difference_tol ads_positions s_loc)]).
Proof.
  unfold pair_step, choice. rewrite collect_mult_filter. cbn [bind].
  destruct (filter _ ads_positions) as [| a_loc rest]; reflexivity.
Qed.

(** The function as one comprehension over the rows of the two inputs. *)
Lemma find_ads_slab_pairs_rows (slab ads : list Atom) (difference_tol : float)
      (slab_positions ads_positions : list row) :
  reference_rows slab = Ok slab_positions ->
  reference_rows ads = Ok ads_positions ->
  find_ads_slab_pairs slab ads difference_tol =
  Ok (map (fun s_loc =>
             (row_index s_loc, choice difference_tol ads_positions s_loc))
          slab_positions).
Proof.
  intros Hs Ha. unfold find_ads_slab_pairs. rewrite Hs, Ha. cbn [bind].
  apply (for_each_step
           (fun s_loc =>
              (row_index s_loc, choice difference_tol ads_positions s_loc))).
  intros acc x. apply pair_step_choice.
Qed.

Lemma find_ads_slab_pairs_inv (slab ads : list Atom) (difference_tol : float)
      (pair : list (Z * value)) :
  find_ads_slab_pairs slab ads difference_tol = Ok pair ->
  exists slab_positions ads_positions,
    Forall2 (fun loc r => reference_row loc = Ok r) slab slab_positions /\
    Forall2 (fun loc r => reference_row loc = Ok r) ads ads_positions /\
    pair =
    map (fun s_loc =>
           (row_index s_loc, choice difference_tol ads_positions s_loc))
        slab_positions.
Proof.
  intros E.
  destruct (reference_rows slab) as [srows |] eqn:Es;
    [| unfold find_ads_slab_pairs in E; rewrite Es in E; discriminate].
  destruct (reference_rows ads) as [arows |] eqn:Ea;
    [| unfold find_ads_slab_pairs in E; rewrite Es, Ea in E; discriminate].
  rewrite (find_ads_slab_pairs_rows _ _ _ _ _ Es Ea) in E.
  injection E as <-. exists srows, arows.
  rewrite reference_rows_traverse in Es, Ea.
  repeat split; auto using traverse_Ok.
Qed.

Lemma find_ads_slab_pairs_total (slab ads : list Atom)
      (difference_tol : float) :
  Forall well_formed slab -> Forall well_formed ads ->
  exists slab_positions ads_positions,
    Forall2 (fun loc r => reference_row loc = Ok r) slab slab_positions /\
    Forall2 (fun loc r => reference_row loc = Ok r) ads ads_positions /\
    find_ads_slab_pairs slab ads difference_tol =
    Ok (map (fun s_loc =>
               (row_index s_loc, choice difference_tol ads_positions s_loc))
            slab_positions).
Proof.
  intros Hs Ha.
  destruct (reference_rows_total slab Hs) as [srows [Es Fs]].
  destruct (reference_rows_total ads Ha) as [arows [Ea Fa]].
  exists srows, arows. repeat split; try assumption.
  now apply find_ads_slab_pairs_rows.
Qed.

(** The entry of the [k]-th atom of [slab]. *)
Lemma entry_of_nth (slab : list Atom) (slab_positions ads_positions : list row)
      (difference_tol : float) (k : nat) (s : Atom) (rs : row) :
  Forall2 (fun loc r => reference_row loc = Ok r) slab slab_positions ->
  nth_error slab k = Some s -> reference_row s = Ok rs ->
  nth_error
    (map (fun s_loc =>
            (row_index s_loc, choice difference_tol ads_positions s_loc))
         slab_positions) k =
  Some (index s, choice difference_tol ads_positions rs).
Proof.
  intros F Hk Hrs.
  destruct (Forall2_nth_error_l _ _ _ _ _ F Hk) as [r [Hr Er]].
  rewrite Hrs in Er. injection Er as <-.
  rewrite nth_error_map, Hr. simpl.
  now rewrite (reference_row_index s rs Hrs).
Qed.

Lemma choice_none (difference_tol : float) (ads_positions : list row)
      (s_loc : row) :
  (forall a_loc, In a_loc ads_positions ->
                 within_tol difference_tol s_loc a_loc = false) ->
  choice difference_tol ads_positions s_loc = sentinel.
Proof.
  intros H. unfold choice.
  destruct (filter _ ads_positions) as [| a_loc rest] eqn:E; [reflexivity |].
  assert (Hin : In a_loc (filter (within_tol difference_tol s_loc)
                                 ads_positions))
    by (rewrite E; now left).
  apply filter_In in Hin as [Hin Hw]. rewrite (H a_loc Hin) in Hw.
  discriminate.
Qed.

Lemma choice_first (difference_tol : float) (pre post : list row)
      (s_loc a_loc : row) :
  (forall b_loc, In b_loc pre ->
                 within_tol difference_tol s_loc b_loc = false) ->
  within_tol difference_tol s_loc a_loc = true ->
  choice difference_tol (pre ++ a_loc :: post) s_loc =
  Int (row_index a_loc).
Proof.
  intros Hpre Ha. unfold choice. rewrite filter_app.
  replace (filter (within_tol difference_tol s_loc) pre) with (@nil row).
  - simpl. now rewrite Ha.
  - symmetry. induction pre as [| b pre IH]; [reflexivity |].
    simpl. rewrite (Hpre b) by now left.
    apply IH. intros c Hc. apply Hpre. now right.
Qed.

Lemma choice_cases (difference_tol : float) (ads_positions : list row)
      (s_loc : row) :
  choice difference_tol ads_positions s_loc = sentinel \/
  exists a_loc, In a_loc ads_positions /\
    within_tol difference_tol s_loc a_loc = true /\
    choice difference_tol ads_positions s_loc = Int (row_index a_loc).
Proof.
  unfold choice.
  destruct (filter _ ads_positions) as [| a_loc rest] eqn:E; [now left |].
  right. exists a_loc.
  assert (Hin : In a_loc (filter (within_tol difference_tol s_loc)
                                 ads_positions))
    by (rewrite E; now left).
  apply filter_In in Hin as [Hin Hw]. auto.
Qed.

Lemma choice_app (difference_tol : float) (ads_positions extra : list row)
      (s_loc : row) :
  choice difference_tol ads_positions s_loc <> sentinel ->
  choice difference_tol (ads_positions ++ extra) s_loc =
  choice difference_tol ads_positions s_loc.
Proof.
  unfold choice. rewrite filter_app.
  destruct (filter _ ads_positions); [congruence | reflexivity].
Qed.

Lemma Forall2_split_r {A B : Type} (R : A -> B -> Prop) (pre : list A)
      (x : A) (post : list A) (ys : list B) :
  Forall2 R (pre ++ x :: post) ys ->
  exists ys1 y ys2, ys = ys1 ++ y :: ys2 /\
    Forall2 R pre ys1 /\ R x y /\ Forall2 R post ys2.
Proof.
  intros H. apply Forall2_app_inv_l in H as [ys1 [ys' [H1 [H2 ->]]]].
  inversion H2 as [| x' y l l' Hxy Hpost]; subst.
  exists ys1, y, l'. auto.
Qed.

(** ** Properties of find_ads_slab_pairs *)

(** C1, counterexample.  The slab atom at the origin and the ads atom at
    (0, 0, 0.5) differ by less than 0.3 in their distances to the three
    reference points off the origin, and by 0.5 in their distance to the
    origin: the ads atom is not collected, and the slab atom is
    unmatched. *)
Lemma origin_distance_is_compared :
  exists s_loc a_loc,
    reference_rows origin_slab = Ok [s_loc] /\
    reference_rows raised_ads = Ok [a_loc] /\
    off_origin_within 0.3 s_loc a_loc = true /\
    (abs (row_d0 s_loc - row_d0 a_loc) <=? 0.3)%float = false /\
    collect_mult 0.3 s_loc [a_loc] = Ok [] /\
    find_ads_slab_pairs origin_slab raised_ads 0.3 = Ok [(0, sentinel)].
Proof.
  do 2 eexists. split; [vm_compute; reflexivity |].
  split; [vm_compute; reflexivity |].
  repeat split; vm_compute; reflexivity.
Qed.

(** C1, amended.  The atoms of [ads] collected as candidates for a slab
    atom are, in the order of [ads], exactly those whose distance to each
    of the four reference points, the origin included, differs from the
    slab atom's by at most the tolerance. *)
Theorem candidates_pass_four_checks (difference_tol : float) (s_loc : row)
        (ads_positions : list row) :
  collect_mult difference_tol s_loc ads_positions =
  Ok (map (mult_entry s_loc)
          (filter
             (fun a_loc =>
                (abs (row_d0 s_loc - row_d0 a_loc) <=? difference_tol)%float &&
                (abs (row_d1 s_loc - row_d1 a_loc) <=? difference_tol)%float &&
                (abs (row_d2 s_loc - row_d2 a_loc) <=? difference_tol)%float &&
                (abs (row_d3 s_loc - row_d3 a_loc) <=? difference_tol)%float)
             ads_positions)) /\
  forall a_loc,
    collect_mult difference_tol s_loc [a_loc] =
    Ok (if (abs (row_d0 s_loc - row_d0 a_loc) <=? difference_tol)%float &&
           (abs (row_d1 s_loc - row_d1 a_loc) <=? difference_tol)%float &&
           (abs (row_d2 s_loc - row_d2 a_loc) <=? difference_tol)%float &&
           (abs (row_d3 s_loc - row_d3 a_loc) <=? difference_tol)%float
        then [mult_entry s_loc a_loc]
        else []).
Proof.
  split; [apply collect_mult_filter |].
  intros a_loc. rewrite collect_mult_filter. simpl. unfold within_tol.
  now destruct (_ && _).
Qed.

(** C3.  A returned list has one entry per atom of [slab], and the first
    element of its [k]-th entry is the index of the [k]-th atom of [slab];
    on well-formed positions the call returns. *)
Theorem one_entry_per_slab_atom (slab ads : list Atom)
        (difference_tol : float) :
  (forall pair,
      find_ads_slab_pairs slab ads difference_tol = Ok pair ->
      List.length pair = List.length slab /\
      map fst pair = map index slab /\
      forall k s, nth_error slab k = Some s ->
                  exists v, nth_error pair k = Some (index s, v)) /\
  (Forall well_formed slab -> Forall well_formed ads ->
   exists pair, find_ads_slab_pairs slab ads difference_tol = Ok pair).
Proof.
  split.
  - intros pair E.
    destruct (find_ads_slab_pairs_inv slab ads difference_tol pair E)
      as [srows [arows [Fs [Fa ->]]]].
    repeat split.
    + rewrite length_map. apply (Forall2_length_eq _ _ _ Fs).
    + rewrite map_map. simpl. clear Fa E.
      induction Fs as [| s r slab' srows' Hr _ IH]; [reflexivity |].
      simpl. now rewrite (reference_row_index s r Hr), IH.
    + intros k s Hk.
      destruct (Forall2_nth_error_l _ _ _ _ _ Fs Hk) as [rs [_ Hrs]].
      eexists. eapply entry_of_nth; eassumption.
  - intros Hs Ha.
    destruct (find_ads_slab_pairs_total slab ads difference_tol Hs Ha)
      as [srows [arows [_ [_ E]]]].
    eauto.
Qed.

Lemma one_entry_per_slab_atom_witness :
  exists pair, find_ads_slab_pairs close_pair raised_ads 0.3 = Ok pair.
Proof.
  apply (proj2 (one_entry_per_slab_atom close_pair raised_ads 0.3));
    repeat constructor.
Defined.

(** C4.  An atom of [slab] without a candidate in [ads] is no error: its
    entry carries the sentinel ['n'].  With an empty [ads] every entry
    carries the sentinel, and with an empty [slab] the result is empty. *)
Theorem sentinel_on_miss (slab ads : list Atom) (difference_tol : float) :
  Forall well_formed slab -> Forall well_formed ads ->
  exists pair,
    find_ads_slab_pairs slab ads difference_tol = Ok pair /\
    (forall k s rs,
        nth_error slab k = Some s -> reference_row s = Ok rs ->
        (forall a ra, In a ads -> reference_row a = Ok ra ->
                      within_tol difference_tol rs ra = false) ->
        nth_error pair k = Some (index s, Str "n")) /\
    (ads = [] -> Forall (fun entry => snd entry = Str "n") pair) /\
    (slab = [] -> pair = []).
Proof.
  intros Hs Ha.
  destruct (find_ads_slab_pairs_total slab ads difference_tol Hs Ha)
    as [srows [arows [Fs [Fa E]]]].
  eexists. split; [exact E |]. repeat split.
  - intros k s rs Hk Hrs Hmiss.
    rewrite (entry_of_nth _ _ _ _ _ _ _ Fs Hk Hrs). do 2 f_equal.
    apply choice_none. intros ra Hra.
    destruct (Forall2_In_r _ _ _ _ Fa Hra) as [a [Hin Hrow]].
    eapply Hmiss; eassumption.
  - intros ->. inversion Fa; subst.
    apply Forall_forall. intros entry Hin.
    apply in_map_iff in Hin as [r [<- _]]. reflexivity.
  - intros ->. inversion Fs; subst. reflexivity.
Qed.

Lemma sentinel_on_miss_witness :
  exists pair,
    find_ads_slab_pairs origin_slab raised_ads 0.3 = Ok pair /\
    (forall k s rs,
        nth_error origin_slab k = Some s -> reference_row s = Ok rs ->
        (forall a ra, In a raised_ads -> reference_row a = Ok ra ->
                      within_tol 0.3 rs ra = false) ->
        nth_error pair k = Some (index s, Str "n")) /\
    (raised_ads = [] -> Forall (fun entry => snd entry = Str "n") pair) /\
    (origin_slab = [] -> pair = []).
Proof.
  apply (sentinel_on_miss origin_slab raised_ads 0.3); repeat constructor.
Defined.

(** C5.  An atom of [slab] with a candidate is paired with the first
    candidate in the order of [ads].  The scenario of the specification
    yields [[5, 9]]. *)
Theorem first_candidate_wins (slab ads : list Atom) (difference_tol : float) :
  Forall well_formed slab -> Forall well_formed ads ->
  (exists pair,
    find_ads_slab_pairs slab ads difference_tol = Ok pair /\
    forall k s rs pre a post ra,
      nth_error slab k = Some s -> reference_row s = Ok rs ->
      ads = pre ++ a :: post -> reference_row a = Ok ra ->
      within_tol difference_tol rs ra = true ->
      (forall b rb, In b pre -> reference_row b = Ok rb ->
                    within_tol difference_tol rs rb = false) ->
      nth_error pair k = Some (index s, Int (index a))) /\
  find_ads_slab_pairs scenario_slab scenario_ads 0.3 = Ok [(5, Int 9)].
Proof.
  intros Hs Ha. split; [| vm_compute; reflexivity].
  destruct (find_ads_slab_pairs_total slab ads difference_tol Hs Ha)
    as [srows [arows [Fs [Fa E]]]].
  eexists. split; [exact E |].
  intros k s rs pre a post ra Hk Hrs -> Hra Hw Hpre.
  rewrite (entry_of_nth _ _ _ _ _ _ _ Fs Hk Hrs). do 2 f_equal.
  destruct (Forall2_split_r _ _ _ _ _ Fa)
    as [rows1 [ra' [rows2 [-> [F1 [Hra' F2]]]]]].
  rewrite Hra in Hra'. injection Hra' as <-.
  rewrite <- (reference_row_index a ra Hra).
  apply choice_first; [| exact Hw].
  intros rb Hrb. destruct (Forall2_In_r _ _ _ _ F1 Hrb) as [b [Hin Hrow]].
  eapply Hpre; eassumption.
Qed.

Lemma first_candidate_wins_witness :
  (exists pair,
    find_ads_slab_pairs close_pair close_pair 0.3 = Ok pair /\
    forall k s rs pre a post ra,
      nth_error close_pair k = Some s -> reference_row s = Ok rs ->
      close_pair = pre ++ a :: post -> reference_row a = Ok ra ->
      within_tol 0.3 rs ra = true ->
      (forall b rb, In b pre -> reference_row b = Ok rb ->
                    within_tol 0.3 rs rb = false) ->
      nth_error pair k = Some (index s, Int (index a))) /\
  find_ads_slab_pairs scenario_slab scenario_ads 0.3 = Ok [(5, Int 9)].
Proof.
  apply (first_candidate_wins close_pair close_pair 0.3);
    repeat constructor.
Defined.

Lemma Forall2_functional {A B : Type} (f : A -> result B) (xs : list A)
      (ys ys' : list B) :
  Forall2 (fun x y => f x = Ok y) xs ys ->
  Forall2 (fun x y => f x = Ok y) xs ys' -> ys = ys'.
Proof.
  intros H. revert ys'. induction H as [| x y xs ys Hxy _ IH]; intros ys' H'.
  - now inversion H'.
  - inversion H' as [| x' y' l l' Hxy' Hrest]; subst.
    rewrite Hxy in Hxy'. injection Hxy' as <-. f_equal. now apply IH.
Qed.

Lemma Forall2_nth_error_r {A B : Type} (R : A -> B -> Prop) (xs : list A)
      (ys : list B) (k : nat) (y : B) :
  Forall2 R xs ys -> nth_error ys k = Some y ->
  exists x, nth_error xs k = Some x /\ R x y.
Proof.
  intros H. revert k. induction H as [| x' y' xs ys Hxy _ IH]; intros k.
  - destruct k; discriminate.
  - destruct k as [| k]; simpl.
    + intros [= <-]. now exists x'.
    + apply IH.
Qed.

(** C9.  No relation between the lengths of [slab] and [ads] is needed:
    on well-formed positions the call returns one entry per atom of
    [slab], each the sentinel or the index of an atom of [ads]; and atoms
    missing from [ads] only turn matches into sentinels, since every match
    found in [ads] is still the match found in [ads] followed by more
    atoms. *)
Theorem shorter_ads_is_no_error (slab ads : list Atom)
        (difference_tol : float) :
  Forall well_formed slab -> Forall well_formed ads ->
  exists pair,
    find_ads_slab_pairs slab ads difference_tol = Ok pair /\
    List.length pair = List.length slab /\
    Forall (fun entry =>
              snd entry = Str "n" \/
              exists a, In a ads /\ snd entry = Int (index a)) pair /\
    forall extra, Forall well_formed extra ->
      exists pair',
        find_ads_slab_pairs slab (ads ++ extra) difference_tol = Ok pair' /\
        forall k i v, nth_error pair k = Some (i, v) -> v <> Str "n" ->
                      nth_error pair' k = Some (i, v).
Proof.
  intros Hs Ha.
  destruct (find_ads_slab_pairs_total slab ads difference_tol Hs Ha)
    as [srows [arows [Fs [Fa E]]]].
  eexists. split; [exact E |]. repeat split.
  - rewrite length_map. apply (Forall2_length_eq _ _ _ Fs).
  - apply Forall_forall. intros entry Hin.
    apply in_map_iff in Hin as [r [<- _]]. simpl.
    destruct (choice_cases difference_tol arows r)
      as [-> | [ra [Hra [_ ->]]]]; [now left | right].
    destruct (Forall2_In_r _ _ _ _ Fa Hra) as [a [Hin Hrow]].
    exists a. split; [exact Hin |].
    now rewrite (reference_row_index a ra Hrow).
  - intros extra He.
    assert (Hae : Forall well_formed (ads ++ extra))
      by (apply Forall_app; now split).
    destruct (find_ads_slab_pairs_total slab (ads ++ extra) difference_tol
                                        Hs Hae)
      as [srows' [arows' [Fs' [Fa' E']]]].
    rewrite <- (Forall2_functional _ _ _ _ Fs Fs') in E'.
    apply Forall2_app_inv_l in Fa' as [rows1 [erows [F1 [F2 ->]]]].
    rewrite <- (Forall2_functional _ _ _ _ Fa F1) in E'.
    eexists. split; [exact E' |].
    intros k i v Hk Hv. rewrite nth_error_map in *.
    destruct (nth_error srows k) as [r |]; [| discriminate].
    simpl in *. injection Hk as <- <-.
    now rewrite choice_app.
Qed.

Lemma shorter_ads_is_no_error_witness :
  exists pair,
    find_ads_slab_pairs close_pair raised_ads 0.3 = Ok pair /\
    List.length pair = List.length close_pair /\
    Forall (fun entry =>
              snd entry = Str "n" \/
              exists a, In a raised_ads /\ snd entry = Int (index a)) pair /\
    forall extra, Forall well_formed extra ->
      exists pair',
        find_ads_slab_pairs close_pair (raised_ads ++ extra) 0.3 = Ok pair' /\
        forall k i v, nth_error pair k = Some (i, v) -> v <> Str "n" ->
                      nth_error pair' k = Some (i, v).
Proof.
  apply (shorter_ads_is_no_error close_pair raised_ads 0.3);
    repeat constructor.
Defined.

(** *** A structure matched against a copy of itself *)

Lemma reference_row_position (s a : Atom) (rs : row) :
  position a = position s -> reference_row s = Ok rs ->
  reference_row a =
  Ok (mkRow (index a) (row_d0 rs) (row_d1 rs) (row_d2 rs) (row_d3 rs)).
Proof.
  intros Hpos. unfold reference_row.
  replace (distance_0 a) with (distance_0 s)
    by (unfold distance_0; now rewrite Hpos).
  replace (distance_1 a) with (distance_1 s)
    by (unfold distance_1; now rewrite Hpos).
  replace (distance_2 a) with (distance_2 s)
    by (unfold distance_2; now rewrite Hpos).
  replace (distance_3 a) with (distance_3 s)
    by (unfold distance_3; now rewrite Hpos).
  destruct (distance_0 s); [| discriminate].
  destruct (distance_1 s); [| discriminate].
  destruct (distance_2 s); [| discriminate].
  destruct (distance_3 s); [| discriminate].
  simpl. now intros [= <-].
Qed.

Lemma within_tol_same_distances (difference_tol : float) (rs : row) (i : Z) :
  finite_row rs = true -> (0 <=? difference_tol)%float = true ->
  within_tol difference_tol rs
    (mkRow i (row_d0 rs) (row_d1 rs) (row_d2 rs) (row_d3 rs)) = true.
Proof.
  unfold finite_row, within_tol. intros Hfin Htol.
  cbn [row_d0 row_d1 row_d2 row_d3].
  apply andb_prop in Hfin as [Hfin H3].
  apply andb_prop in Hfin as [Hfin H2].
  apply andb_prop in Hfin as [H0 H1].
  now rewrite !FloatFacts.self_within.
Qed.

(** The first element of a list that passes a test stands no later than
    any element that passes it. *)
Lemma first_match {A : Type} (p : A -> bool) (l : list A) (k : nat) (x : A) :
  nth_error l k = Some x -> p x = true ->
  exists k' y rest,
    (k' <= k)%nat /\ nth_error l k' = Some y /\ p y = true /\
    (forall j z, (j < k')%nat -> nth_error l j = Some z -> p z = false) /\
    filter p l = y :: rest.
Proof.
  revert k. induction l as [| z l IH]; intros k Hk Hx.
  - destruct k; discriminate.
  - simpl. destruct (p z) eqn:Ez.
    + exists 0%nat, z, (filter p l). repeat split; try lia; auto.
    + destruct k as [| k]; simpl in Hk.
      * injection Hk as ->. congruence.
      * destruct (IH k Hk Hx) as [k' [y [rest [Hle [Hy [Hpy [Hbefore E]]]]]]].
        exists (S k'), y, rest. repeat split; try lia; auto.
        intros j w Hj Hw. destruct j as [| j]; simpl in Hw.
        -- injection Hw as <-. exact Ez.
        -- apply (Hbefore j); [lia | exact Hw].
Qed.

Lemma copy_positions (slab ads : list Atom) :
  map position ads = map position slab ->
  Forall2 (fun s a => position a = position s) slab ads.
Proof.
  revert ads. induction slab as [| s slab IH]; intros [| a ads] H;
    try discriminate; constructor.
  - now injection H.
  - apply IH. now injection H.
Qed.

Lemma copy_rows (slab ads : list Atom) :
  Forall2 (fun s a => position a = position s) slab ads ->
  Forall finite_fingerprint slab ->
  exists slab_positions ads_positions,
    reference_rows slab = Ok slab_positions /\
    reference_rows ads = Ok ads_positions /\
    Forall2 (fun loc r => reference_row loc = Ok r) slab slab_positions /\
    Forall2 (fun loc r => reference_row loc = Ok r) ads ads_positions.
Proof.
  intros Hcopy Hfin.
  assert (Ts : Forall (fun loc => exists r, reference_row loc = Ok r) slab).
  { eapply Forall_impl; [| exact Hfin]. intros loc [r [Hr _]]. eauto. }
  assert (Ta : Forall (fun loc => exists r, reference_row loc = Ok r) ads).
  { clear Hfin. induction Hcopy as [| s a slab ads Hpos _ IH];
      constructor.
    - inversion Ts as [| s' l [r Hr] Hrest]; subst.
      eexists. apply (reference_row_position s a r Hpos Hr).
    - apply IH. now inversion Ts. }
  destruct (traverse_total _ _ Ts) as [srows Es].
  destruct (traverse_total _ _ Ta) as [arows Ea].
  exists srows, arows. rewrite !reference_rows_traverse.
  repeat split; auto using traverse_Ok.
Qed.

(** C2, counterexample.  Matched against a copy of itself with tolerance
    0.3, the atom at (0.125, 0, 0) is paired with the atom at the origin,
    which stands first: the two positions differ and so do the
    fingerprints.  And an atom with an undefined coordinate is not matched
    with its own copy. *)
Lemma copy_matches_a_neighbour :
  find_ads_slab_pairs close_pair close_pair 0.3 =
  Ok [(0, Int 0); (1, Int 0)] /\
  find_ads_slab_pairs undefined_atom undefined_atom 0.3 =
  Ok [(0, Str "n")] /\
  exists s a rs ra,
    nth_error close_pair 1 = Some s /\ index s = 1 /\
    nth_error close_pair 0 = Some a /\ index a = 0 /\
    position s <> position a /\
    reference_row s = Ok rs /\ reference_row a = Ok ra /\
    (row_d0 rs - row_d0 ra =? 0)%float = false.
Proof.
  split; [vm_compute; reflexivity |].
  split; [vm_compute; reflexivity |].
  do 4 eexists.
  split; [reflexivity |]. split; [reflexivity |].
  split; [reflexivity |]. split; [reflexivity |].
  split.
  - intros H.
    apply (f_equal (fun p => match p with
                             | x :: _ => (x =? 0)%float
                             | [] => true
                             end)) in H.
    vm_compute in H. discriminate.
  - split; [vm_compute; reflexivity |].
    split; vm_compute; reflexivity.
Qed.

(** C2, amended.  When [ads] has the positions of [slab], atom for atom,
    the fingerprints are finite and the tolerance is not negative, every
    atom of [slab] is matched: its own copy passes the test, and it is
    paired with the first atom of [ads] that passes the test, which is its
    own copy or an atom standing before it. *)
Theorem copy_is_matched (slab ads : list Atom) (difference_tol : float) :
  map position ads = map position slab ->
  (0 <=? difference_tol)%float = true ->
  Forall finite_fingerprint slab ->
  exists pair,
    find_ads_slab_pairs slab ads difference_tol = Ok pair /\
    List.length pair = List.length slab /\
    forall k s rs,
      nth_error slab k = Some s -> reference_row s = Ok rs ->
      (exists c rc,
          nth_error ads k = Some c /\ position c = position s /\
          reference_row c = Ok rc /\
          within_tol difference_tol rs rc = true) /\
      exists k' a ra,
        (k' <= k)%nat /\ nth_error ads k' = Some a /\
        reference_row a = Ok ra /\
        within_tol difference_tol rs ra = true /\
        (forall j b rb,
            (j < k')%nat -> nth_error ads j = Some b ->
            reference_row b = Ok rb ->
            within_tol difference_tol rs rb = false) /\
        nth_error pair k = Some (index s, Int (index a)).
Proof.
  intros Hmap Htol Hfin.
  pose proof (copy_positions slab ads Hmap) as Hcopy.
  destruct (copy_rows slab ads Hcopy Hfin) as [srows [arows [Es [Ea [Fs Fa]]]]].
  eexists. split; [exact (find_ads_slab_pairs_rows _ _ _ _ _ Es Ea) |].
  split; [rewrite length_map; apply (Forall2_length_eq _ _ _ Fs) |].
  intros k s rs Hk Hrs.
  destruct (Forall2_nth_error_l _ _ _ _ _ Hcopy Hk) as [c [Hc Hpos]].
  pose proof (reference_row_position s c rs Hpos Hrs) as Hrc.
  assert (Hfr : finite_row rs = true).
  { rewrite Forall_forall in Hfin.
    destruct (Hfin s (nth_error_In _ _ Hk)) as [r [Hr Hf]].
    rewrite Hrs in Hr. now injection Hr as <-. }
  pose proof (within_tol_same_distances difference_tol rs (index c)
                                        Hfr Htol) as Hw.
  split; [exists c; eexists; eauto |].
  destruct (Forall2_nth_error_l _ _ _ _ _ Fa Hc) as [rc [Hkrc Erc]].
  rewrite Hrc in Erc. injection Erc as <-.
  destruct (first_match (within_tol difference_tol rs) arows k _ Hkrc Hw)
    as [k' [ra [rest [Hle [Hra [Hpa [Hbefore Efilter]]]]]]].
  destruct (Forall2_nth_error_r _ _ _ _ _ Fa Hra) as [a [Ha Hrow]].
  exists k', a, ra. repeat split; auto.
  - intros j b rb Hj Hb Hrb.
    destruct (Forall2_nth_error_l _ _ _ _ _ Fa Hb) as [rb' [Hjrb Erb]].
    rewrite Hrb in Erb. injection Erb as <-.
    apply (Hbefore j); assumption.
  - rewrite (entry_of_nth _ _ _ _ _ _ _ Fs Hk Hrs). do 2 f_equal.
    unfold choice. rewrite Efilter.
    now rewrite (reference_row_index a ra Hrow).
Qed.

Lemma copy_is_matched_witness :
  exists pair,
    find_ads_slab_pairs close_pair close_pair 0.3 = Ok pair /\
    List.length pair = List.length close_pair /\
    forall k s rs,
      nth_error close_pair k = Some s -> reference_row s = Ok rs ->
      (exists c rc,
          nth_error close_pair k = Some c /\ position c = position s /\
          reference_row c = Ok rc /\
          within_tol 0.3 rs rc = true) /\
      exists k' a ra,
        (k' <= k)%nat /\ nth_error close_pair k' = Some a /\
        reference_row a = Ok ra /\
        within_tol 0.3 rs ra = true /\
        (forall j b rb,
            (j < k')%nat -> nth_error close_pair j = Some b ->
            reference_row b = Ok rb ->
            within_tol 0.3 rs rb = false) /\
        nth_error pair k = Some (index s, Int (index a)).
Proof.
  apply (copy_is_matched close_pair close_pair 0.3);
    [reflexivity | reflexivity |].
  apply Forall_cons; [| apply Forall_cons; [| apply Forall_nil]];
    (eexists; split; [vm_compute; reflexivity | vm_compute; reflexivity]).
Defined.

(** ** Facts on find_symmetric_pairs *)

Section Dictionaries.

Context {V : Type}.

Lemma setitem_absent (d : dict V) (k : Z) (v : V) :
  mem k (keys d) = false -> setitem d k v = d ++ [(k, v)].
Proof.
  induction d as [| [k' v'] d IH]; simpl; [reflexivity |].
  intros H. apply orb_false_elim in H as [H1 H2].
  rewrite Z.eqb_sym, H1. f_equal. now apply IH.
Qed.

Lemma setitem_present_same (d : dict V) (k : Z) (v : V) :
  mem k (keys d) = true -> (forall v', In (k, v') d -> v' = v) ->
  setitem d k v = d.
Proof.
  induction d as [| [k' v'] d IH]; simpl; [discriminate |].
  intros H Hv. destruct (k' =? k) eqn:E.
  - apply Z.eqb_eq in E. subst k'. f_equal. f_equal.
    symmetry. apply Hv. now left.
  - rewrite Z.eqb_sym, E in H. simpl in H. f_equal.
    apply IH; [exact H |]. intros w Hw. apply Hv. now right.
Qed.

Lemma mem_In (k : Z) (ks : list Z) : mem k ks = true <-> In k ks.
Proof.
  unfold mem. rewrite existsb_exists. split.
  - intros [x [Hx E]]. apply Z.eqb_eq in E. now subst.
  - intros H. exists k. split; [exact H | apply Z.eqb_refl].
Qed.

Lemma keys_In (d : dict V) (k : Z) :
  In k (keys d) -> exists v, In (k, v) d.
Proof.
  unfold keys. intros H. apply in_map_iff in H as [[k' v] [E H]].
  simpl in E. subst. now exists v.
Qed.

Lemma lookup_setitem (d : dict V) (k k' : Z) (v : V) :
  lookup (setitem d k v) k' = if k =? k' then Some v else lookup d k'.
Proof.
  unfold lookup. induction d as [| [k0 v0] d IH]; simpl.
  - now destruct (k =? k').
  - destruct (k0 =? k) eqn:E0; simpl.
    + apply Z.eqb_eq in E0. subst k0. now destruct (k =? k').
    + destruct (k0 =? k') eqn:E1; simpl; [| exact IH].
      apply Z.eqb_eq in E1. subst k0. now rewrite Z.eqb_sym, E0.
Qed.

Lemma lookup_app (d1 d2 : dict V) (k : Z) :
  lookup (d1 ++ d2) k =
  match lookup d1 k with Some v => Some v | None => lookup d2 k end.
Proof.
  unfold lookup. induction d1 as [| [k0 v0] d1 IH]; simpl; [reflexivity |].
  destruct (k0 =? k); simpl; [reflexivity | exact IH].
Qed.

(** After a sequence of assignments a key holds the value assigned to
    it last. *)
Lemma lookup_write_all (writes : list (Z * V)) (d : dict V) (k : Z) :
  lookup (write_all writes d) k =
  match last_write writes k with
  | Some v => Some v
  | None => lookup d k
  end.
Proof.
  unfold write_all, last_write. revert d.
  induction writes as [| [k0 v0] writes IH]; intros d; simpl;
    [reflexivity |].
  rewrite IH, lookup_app, lookup_setitem.
  destruct (lookup (rev writes) k); [reflexivity |].
  unfold lookup at 2. simpl. now destruct (k0 =? k).
Qed.

Lemma lookup_In (d : dict V) (k : Z) (v : V) :
  lookup d k = Some v -> In (k, v) d.
Proof.
  unfold lookup. destruct (find _ d) as [[k' v'] |] eqn:E; [| discriminate].
  apply find_some in E as [Hin Hk]. simpl in *. apply Z.eqb_eq in Hk.
  intros [= <-]. now subst.
Qed.

Lemma In_lookup (d : dict V) (k : Z) :
  In k (keys d) -> exists v, lookup d k = Some v.
Proof.
  unfold lookup, keys. induction d as [| [k' v'] d IH]; simpl; [tauto |].
  intros [-> | H].
  - rewrite Z.eqb_refl. eauto.
  - destruct (k' =? k); eauto.
Qed.

End Dictionaries.

Section DistinctFacts.

Lemma filter_filter_and {A : Type} (p q : A -> bool) (l : list A) :
  filter p (filter q l) = filter (fun x => q x && p x) l.
Proof.
  induction l as [| x l IH]; simpl; [reflexivity |].
  destruct (q x); simpl; [| exact IH].
  destruct (p x); now rewrite IH.
Qed.

Lemma distinct_In (s : list Z) (k : Z) : In k (distinct s) <-> In k s.
Proof.
  induction s as [| k' s IH]; simpl; [tauto |].
  rewrite filter_In, IH. split.
  - intros [-> | [H _]]; auto.
  - intros [-> | H]; [now left |].
    destruct (Z.eq_dec k' k) as [-> | Hne]; [now left | right].
    split; [exact H |]. apply negb_true_iff, Z.eqb_neq. congruence.
Qed.

Lemma distinct_NoDup (s : list Z) : NoDup (distinct s).
Proof.
  induction s as [| k s IH]; simpl; constructor.
  - rewrite filter_In. intros [_ H].
    now rewrite Z.eqb_refl in H.
  - now apply NoDup_filter.
Qed.

Lemma filter_id {A : Type} (p : A -> bool) (l : list A) :
  (forall x, In x l -> p x = true) -> filter p l = l.
Proof.
  induction l as [| x l IH]; simpl; intros H; [reflexivity |].
  rewrite (H x) by now left. f_equal. apply IH. auto.
Qed.

Lemma distinct_NoDup_id (s : list Z) : NoDup s -> distinct s = s.
Proof.
  induction 1 as [| k s Hk _ IH]; simpl; [reflexivity |].
  rewrite IH. f_equal. apply filter_id. intros j Hj.
  apply negb_true_iff, Z.eqb_neq. congruence.
Qed.

Lemma distinct_idempotent (s : list Z) : distinct (distinct s) = distinct s.
Proof. apply distinct_NoDup_id, distinct_NoDup. Qed.

End DistinctFacts.

(** Two nested loops that append an element when a test passes. *)
Lemma for_each_nested {A B C : Type} (p : A -> B -> bool) (g : A -> B -> C)
      (xs : list A) (ys : list B) (acc : list C) :
  for_each xs
    (fun acc x =>
       for_each ys
         (fun acc y => Ok (if p x y then acc ++ [g x y] else acc)) acc)
    acc =
  Ok (acc ++ flat_map (fun x => map (g x) (filter (p x) ys)) xs).
Proof.
  revert acc. induction xs as [| x xs IH]; intros acc; simpl.
  - now rewrite app_nil_r.
  - rewrite (for_each_filter (p x) (g x)). simpl. rewrite IH.
    now rewrite <- app_assoc.
Qed.

Section Displacements.

Variable slab : Atoms.

(** The table after the loop over a sequence of indices, started on a
    table whose values are the displacements of its keys. *)
Lemma fill_from (s : list Z) (acc : dict vec3) :
  (forall k v, In (k, v) acc -> displacement slab k = Ok v) ->
  for_each s
    (fun distances dex =>
       d <- displacement slab dex ;; Ok (setitem distances dex d))
    acc =
  (t <- traverse (entry slab)
                 (filter (fun k => negb (mem k (keys acc))) (distinct s)) ;;
   Ok (acc ++ t)).
Proof.
  revert acc. induction s as [| k s IH]; intros acc Hacc; simpl.
  - now rewrite app_nil_r.
  - destruct (mem k (keys acc)) eqn:Em; simpl.
    + destruct (keys_In acc k (proj1 (mem_In k _) Em)) as [v Hv].
      rewrite (Hacc k v Hv). simpl.
      rewrite setitem_present_same; [| exact Em |].
      * rewrite (IH acc Hacc). rewrite filter_filter_and.
        f_equal. f_equal. apply filter_ext. intros j.
        destruct (j =? k) eqn:Ej; simpl; [| reflexivity].
        apply Z.eqb_eq in Ej. subst j. now rewrite Em.
      * intros v' Hv'. pose proof (Hacc k v' Hv') as E.
        rewrite (Hacc k v Hv) in E. now injection E.
    + unfold entry at 1.
      destruct (displacement slab k) as [d | e] eqn:Ed; simpl;
        [| reflexivity].
      rewrite setitem_absent by exact Em.
      rewrite IH.
      * rewrite filter_filter_and.
        replace (filter (fun j => negb (mem j (keys (acc ++ [(k, d)]))))
                        (distinct s))
          with (filter (fun j => negb (j =? k) && negb (mem j (keys acc)))
                       (distinct s)).
        -- destruct (traverse (entry slab) _) as [t | e]; simpl;
             [| reflexivity].
           now rewrite <- app_assoc.
        -- apply filter_ext. intros j. unfold keys, mem.
           rewrite map_app, existsb_app. simpl.
           rewrite orb_false_r, negb_orb. apply andb_comm.
      * intros k' v' Hin. apply in_app_or in Hin as [Hin | [E | []]].
        -- now apply Hacc.
        -- now injection E as <- <-.
Qed.

(** The table holds the distinct indices in the order of their first
    occurrences, each with its displacement. *)
Lemma fill_distances_distinct (s : list Z) :
  fill_distances slab s = traverse (entry slab) (distinct s).
Proof.
  unfold fill_distances. rewrite fill_from by (intros k v []).
  simpl. rewrite filter_id by reflexivity.
  now destruct (traverse (entry slab) (distinct s)).
Qed.

(** The table is the outcome of the assignments, one per occurrence. *)
Lemma fill_distances_writes (s : list Z) (acc : dict vec3) :
  for_each s
    (fun distances dex =>
       d <- displacement slab dex ;; Ok (setitem distances dex d))
    acc =
  (ds <- traverse (displacement slab) s ;;
   Ok (write_all (combine s ds) acc)).
Proof.
  revert acc. induction s as [| k s IH]; intros acc; simpl;
    [reflexivity |].
  destruct (displacement slab k) as [d | e]; simpl; [| reflexivity].
  rewrite IH. now destruct (traverse (displacement slab) s).
Qed.

Lemma traverse_entry_keys (ks : list Z) (t : list (Z * vec3)) :
  traverse (entry slab) ks = Ok t ->
  map fst t = ks /\
  forall k d, In (k, d) t -> displacement slab k = Ok d.
Proof.
  revert t. induction ks as [| k ks IH]; intros t; simpl.
  - intros [= <-]. split; [reflexivity | intros k d []].
  - unfold entry at 1.
    destruct (displacement slab k) as [d | e] eqn:Ed; simpl;
      [| discriminate].
    destruct (traverse (entry slab) ks) as [t' |]; simpl; [| discriminate].
    intros [= <-]. destruct (IH t' eq_refl) as [Hk Hd]. split.
    + simpl. now rewrite Hk.
    + intros k' d' [E | Hin]; [now injection E as <- <- | now apply Hd].
Qed.

Lemma traverse_entry_In (ks : list Z) (t : list (Z * vec3)) (k : Z)
      (d : vec3) :
  traverse (entry slab) ks = Ok t ->
  In k ks -> displacement slab k = Ok d -> In (k, d) t.
Proof.
  revert t. induction ks as [| k' ks IH]; intros t; simpl; [tauto |].
  unfold entry at 1.
  destruct (displacement slab k') as [d' | e] eqn:Ed; simpl;
    [| discriminate].
  destruct (traverse (entry slab) ks) as [t' |]; simpl; [| discriminate].
  intros [= <-] [-> | Hin] Hd.
  - rewrite Ed in Hd. injection Hd as ->. now left.
  - right. now apply IH.
Qed.

Lemma traverse_entry_total (ks : list Z) :
  (forall k, In k ks -> exists d, displacement slab k = Ok d) <->
  exists t, traverse (entry slab) ks = Ok t.
Proof.
  split.
  - intros H. apply traverse_total. apply Forall_forall.
    intros k Hk. destruct (H k Hk) as [d Hd].
    exists (k, d). unfold entry. now rewrite Hd.
  - intros [t Ht] k Hk.
    destruct (traverse_entry_keys ks t Ht) as [Hkeys Hd].
    rewrite <- Hkeys in Hk. apply in_map_iff in Hk as [[k' d] [E Hin]].
    simpl in E. subst. exists d. now apply Hd.
Qed.

(** The function as one comprehension over the two tables. *)
Lemma find_symmetric_pairs_tables (s1 s2 : list Z) :
  find_symmetric_pairs slab s1 s2 =
  (t1 <- traverse (entry slab) (distinct s1) ;;
   t2 <- traverse (entry slab) (distinct s2) ;;
   Ok (flat_map
         (fun first =>
            map (fun second => (fst first, fst second))
                (filter (fun second => symmetric (snd first) (snd second))
                        t2))
         t1)).
Proof.
  unfold find_symmetric_pairs. rewrite !fill_distances_distinct.
  destruct (traverse (entry slab) (distinct s1)) as [t1 | e]; simpl;
    [| reflexivity].
  destruct (traverse (entry slab) (distinct s2)) as [t2 | e]; simpl;
    [| reflexivity].
  unfold items.
  exact (for_each_nested
           (fun first second : Z * vec3 =>
              symmetric (snd first) (snd second))
           (fun first second : Z * vec3 => (fst first, fst second))
           t1 t2 []).
Qed.

Lemma symmetric_approximate_negation (d1 d2 : vec3) :
  symmetric d1 d2 = approximate_negation d1 d2.
Proof.
  destruct d1 as [[x1 y1] z1], d2 as [[x2 y2] z2].
  unfold symmetric, approximate_negation.
  now rewrite !FloatFacts.mul_neg_one.
Qed.

(** What the call returns, and when a pair belongs to it. *)
Lemma find_symmetric_pairs_Ok (s1 s2 : list Z) :
  (exists pairs, find_symmetric_pairs slab s1 s2 = Ok pairs) <->
  (forall k, In k s1 \/ In k s2 -> exists d, displacement slab k = Ok d).
Proof.
  rewrite find_symmetric_pairs_tables. split.
  - intros [pairs H] k Hk.
    destruct (traverse (entry slab) (distinct s1)) as [t1 |] eqn:E1;
      [| discriminate].
    destruct (traverse (entry slab) (distinct s2)) as [t2 |] eqn:E2;
      [| discriminate].
    destruct Hk as [Hk | Hk]; apply distinct_In in Hk.
    + apply (proj2 (traverse_entry_total (distinct s1))); eauto.
    + apply (proj2 (traverse_entry_total (distinct s2))); eauto.
  - intros H.
    destruct (proj1 (traverse_entry_total (distinct s1))) as [t1 ->].
    { intros k Hk. apply H. left. now apply distinct_In. }
    destruct (proj1 (traverse_entry_total (distinct s2))) as [t2 ->].
    { intros k Hk. apply H. right. now apply distinct_In. }
    simpl. eauto.
Qed.

Lemma find_symmetric_pairs_In (s1 s2 : list Z) (pairs : list (Z * Z))
      (i j : Z) :
  find_symmetric_pairs slab s1 s2 = Ok pairs ->
  In (i, j) pairs <->
  exists di dj,
    In i s1 /\ In j s2 /\
    displacement slab i = Ok di /\ displacement slab j = Ok dj /\
    symmetric di dj = true.
Proof.
  rewrite find_symmetric_pairs_tables.
  destruct (traverse (entry slab) (distinct s1)) as [t1 |] eqn:E1;
    [| discriminate].
  destruct (traverse (entry slab) (distinct s2)) as [t2 |] eqn:E2;
    [| discriminate].
  simpl. intros [= <-].
  destruct (traverse_entry_keys _ _ E1) as [K1 D1].
  destruct (traverse_entry_keys _ _ E2) as [K2 D2].
  rewrite in_flat_map. split.
  - intros [[i' di] [Hi Hin]]. apply in_map_iff in Hin as [[j' dj] [E Hj]].
    simpl in E. injection E as -> ->.
    apply filter_In in Hj as [Hj Hsym]. simpl in Hsym.
    exists di, dj. repeat split; auto.
    + apply distinct_In. rewrite <- K1.
      apply (in_map fst _ _ Hi).
    + apply distinct_In. rewrite <- K2.
      apply (in_map fst _ _ Hj).
  - intros [di [dj [Hi [Hj [Hdi [Hdj Hsym]]]]]].
    exists (i, di). split.
    + apply (traverse_entry_In _ _ _ _ E1); [now apply distinct_In | auto].
    + apply in_map_iff. exists (j, dj). split; [reflexivity |].
      apply filter_In. split; [| exact Hsym].
      apply (traverse_entry_In _ _ _ _ E2); [now apply distinct_In | auto].
Qed.

End Displacements.

Lemma getitem_in_range {A : Type} (l : list A) (i : Z) :
  - Z.of_nat (List.length l) <= i < Z.of_nat (List.length l) ->
  exists a, getitem l i = Ok a /\ In a l.
Proof.
  intros Hi. unfold getitem.
  set (n := Z.of_nat (List.length l)) in *.
  set (j := if i <? 0 then i + n else i).
  assert (Hj : 0 <= j < n).
  { unfold j. destruct (i <? 0) eqn:E.
    - apply Z.ltb_lt in E. lia.
    - apply Z.ltb_ge in E. lia. }
  replace ((0 <=? j) && (j <? n)) with true
    by (symmetry; apply andb_true_intro; split;
        [apply Z.leb_le | apply Z.ltb_lt]; lia).
  destruct (nth_error l (Z.to_nat j)) as [a |] eqn:E.
  - exists a. split; [reflexivity |]. eapply nth_error_In. exact E.
  - apply nth_error_None in E. unfold n in Hj. lia.
Qed.

Lemma displacement_total (slab : Atoms) (dex : Z) :
  well_formed_atoms slab -> in_range slab dex ->
  exists d, displacement slab dex = Ok d.
Proof.
  intros [Hatoms Hcom] Hdex. unfold displacement.
  destruct (getitem_in_range (atoms slab) dex Hdex) as [a [-> Ha]].
  rewrite Forall_forall in Hatoms. pose proof (Hatoms a Ha) as Hwf.
  unfold well_formed in Hwf. cbn [bind].
  destruct (position a) as [| x [| y [| z [| w p]]]]; try discriminate.
  destruct (get_center_of_mass slab) as [| c0 [| c1 [| c2 [| c3 c]]]];
    try discriminate.
  destruct (getitem_triple x y z) as [-> [-> ->]].
  destruct (getitem_triple c0 c1 c2) as [-> [-> ->]].
  cbn [bind]. eauto.
Qed.

Lemma find_symmetric_pairs_total (slab : Atoms) (s1 s2 : list Z) :
  well_formed_atoms slab ->
  Forall (in_range slab) s1 -> Forall (in_range slab) s2 ->
  exists pairs, find_symmetric_pairs slab s1 s2 = Ok pairs.
Proof.
  intros Hwf H1 H2. apply find_symmetric_pairs_Ok.
  rewrite Forall_forall in H1, H2.
  intros k [Hk | Hk]; apply displacement_total; auto.
Qed.

Lemma exact_negation_symmetric (d1 d2 : vec3) :
  exact_negation d1 d2 = true -> symmetric d1 d2 = true.
Proof.
  rewrite symmetric_approximate_negation.
  destruct d1 as [[x1 y1] z1], d2 as [[x2 y2] z2].
  unfold exact_negation, approximate_negation, isclose.
  intros H. apply andb_prop in H as [H Hz]. apply andb_prop in H as [Hx Hy].
  rewrite Hx, Hy, Hz. now rewrite !orb_true_r.
Qed.



(** A comprehension over two tables without repeated keys has no repeated
    pair. *)
Lemma comprehension_NoDup {V : Type} (p : Z * V -> Z * V -> bool)
      (t1 t2 : list (Z * V)) :
  NoDup (map fst t1) -> NoDup (map fst t2) ->
  NoDup (flat_map
           (fun first =>
              map (fun second => (fst first, fst second))
                  (filter (p first) t2))
           t1).
Proof.
  intros H1 H2. induction t1 as [| e1 t1 IH]; simpl; [constructor |].
  inversion H1 as [| k ks Hk Hks]; subst.
  apply NoDup_app.
  - apply NoDup_map_NoDup_ForallPairs.
    + intros x y Hx Hy E. injection E as E.
      apply filter_In in Hx as [Hx _]. apply filter_In in Hy as [Hy _].
      clear - H2 Hx Hy E.
      induction t2 as [| e2 t2 IH2]; [destruct Hx |].
      inversion H2 as [| k ks Hk Hks]; subst.
      destruct Hx as [-> | Hx], Hy as [-> | Hy]; auto.
      * exfalso. apply Hk. rewrite E. now apply in_map.
      * exfalso. apply Hk. rewrite <- E. now apply in_map.
    + apply NoDup_filter. eapply NoDup_map_inv. exact H2.
  - now apply IH.
  - intros [i j] Hin Hin'. apply in_map_iff in Hin as [e2 [E _]].
    injection E as E _. apply in_flat_map in Hin' as [e1' [He1' Hin']].
    apply in_map_iff in Hin' as [e2' [E' _]]. injection E' as E' _.
    apply Hk. rewrite E, <- E'. now apply in_map.
Qed.

Lemma find_symmetric_pairs_NoDup (slab : Atoms) (s1 s2 : list Z)
      (pairs : list (Z * Z)) :
  find_symmetric_pairs slab s1 s2 = Ok pairs -> NoDup pairs.
Proof.
  rewrite find_symmetric_pairs_tables.
  destruct (traverse (entry slab) (distinct s1)) as [t1 |] eqn:E1;
    [| discriminate].
  destruct (traverse (entry slab) (distinct s2)) as [t2 |] eqn:E2;
    [| discriminate].
  simpl. intros [= <-].
  apply (comprehension_NoDup
           (fun first second => symmetric (snd first) (snd second))).
  - rewrite (proj1 (traverse_entry_keys _ _ _ E1)). apply distinct_NoDup.
  - rewrite (proj1 (traverse_entry_keys _ _ _ E2)). apply distinct_NoDup.
Qed.

Lemma find_symmetric_pairs_same_elements (slab : Atoms)
      (s1 s1' s2 s2' : list Z) :
  (forall k, In k s1 <-> In k s1') -> (forall k, In k s2 <-> In k s2') ->
  same_pairs (find_symmetric_pairs slab s1 s2)
             (find_symmetric_pairs slab s1' s2').
Proof.
  intros H1 H2. unfold same_pairs.
  destruct (find_symmetric_pairs slab s1 s2) as [l | e] eqn:E;
    destruct (find_symmetric_pairs slab s1' s2') as [l' | e'] eqn:E';
    try exact I.
  - intros [i j].
    rewrite (find_symmetric_pairs_In _ _ _ _ i j E),
            (find_symmetric_pairs_In _ _ _ _ i j E').
    split; intros [di [dj [Hi [Hj H]]]]; exists di, dj;
      (split; [now apply H1 | split; [now apply H2 | exact H]]).
  - assert (H : exists pairs, find_symmetric_pairs slab s1' s2' = Ok pairs).
    { apply find_symmetric_pairs_Ok. intros k Hk.
      apply (proj1 (find_symmetric_pairs_Ok slab s1 s2)); [eauto |].
      destruct Hk as [Hk | Hk]; [left; now apply H1 | right; now apply H2]. }
    destruct H as [pairs H]. congruence.
  - assert (H : exists pairs, find_symmetric_pairs slab s1 s2 = Ok pairs).
    { apply find_symmetric_pairs_Ok. intros k Hk.
      apply (proj1 (find_symmetric_pairs_Ok slab s1' s2')); [eauto |].
      destruct Hk as [Hk | Hk]; [left; now apply H1 | right; now apply H2]. }
    destruct H as [pairs H]. congruence.
Qed.

(** ** Properties of find_symmetric_pairs *)



(** The displacement of an index, from the position of its atom and the
    centre of mass. *)
Lemma displacement_of_position (slab : Atoms) (dex : Z) (a : Atom)
      (x y z c0 c1 c2 : float) :
  getitem (atoms slab) dex = Ok a ->
  position a = [x; y; z] -> get_center_of_mass slab = [c0; c1; c2] ->
  displacement slab dex = Ok ((x - c0)%float, (y - c1)%float, (z - c2)%float).
Proof.
  intros Ha Hpos Hcom. unfold displacement.
  rewrite Ha, Hcom. cbn [bind]. rewrite Hpos.
  destruct (getitem_triple x y z) as [-> [-> ->]].
  destruct (getitem_triple c0 c1 c2) as [-> [-> ->]].
  reflexivity.
Qed.

Lemma reflection_through_negation (slab : Atoms) (i j : Z) (a b : Atom) :
  getitem (atoms slab) i = Ok a -> getitem (atoms slab) j = Ok b ->
  reflection_through (get_center_of_mass slab) (position a) (position b)
  = true ->
  exists di dj,
    displacement slab i = Ok di /\ displacement slab j = Ok dj /\
    exact_negation di dj = true.
Proof.
  intros Ha Hb H. unfold reflection_through in H.
  destruct (get_center_of_mass slab) as [| c0 [| c1 [| c2 [| c3 c]]]] eqn:Hc;
    try discriminate.
  destruct (position a) as [| x [| y [| z [| w p]]]] eqn:Hpa;
    try discriminate.
  destruct (position b) as [| x' [| y' [| z' [| w' q]]]] eqn:Hpb;
    try discriminate.
  do 2 eexists. split; [| split].
  - exact (displacement_of_position slab i a x y z c0 c1 c2 Ha Hpa Hc).
  - exact (displacement_of_position slab j b x' y' z' c0 c1 c2 Hb Hpb Hc).
  - exact H.
Qed.

(** C7.  When atom [i] of set 1 is exactly the point reflection of atom
    [j] of set 2 through the centre of mass of the structure (position
    minus centre equal to the negated position minus centre, on each
    coordinate), the call returns and [(i, j)] is in its result.  The
    scenario of the specification yields [[0, 1]], and so do two atoms
    mirrored through the centre of mass (1, 1, 1). *)
Theorem reflection_is_paired (slab : Atoms) (s1 s2 : list Z) (i j : Z)
        (a b : Atom) :
  well_formed_atoms slab ->
  Forall (in_range slab) s1 -> Forall (in_range slab) s2 ->
  In i s1 -> In j s2 ->
  getitem (atoms slab) i = Ok a -> getitem (atoms slab) j = Ok b ->
  reflection_through (get_center_of_mass slab) (position a) (position b)
  = true ->
  (exists pairs,
      find_symmetric_pairs slab s1 s2 = Ok pairs /\ In (i, j) pairs) /\
  find_symmetric_pairs mirror [0] [1] = Ok [(0, 1)] /\
  find_symmetric_pairs offset_mirror [0] [1] = Ok [(0, 1)].
Proof.
  intros Hwf H1 H2 Hi Hj Ha Hb Hrefl.
  split; [| split; vm_compute; reflexivity].
  destruct (find_symmetric_pairs_total slab s1 s2 Hwf H1 H2) as [pairs E].
  exists pairs. split; [exact E |].
  destruct (reflection_through_negation slab i j a b Ha Hb Hrefl)
    as [di [dj [Hdi [Hdj Hneg]]]].
  apply (find_symmetric_pairs_In _ _ _ _ i j E).
  exists di, dj. repeat split; auto using exact_negation_symmetric.
Qed.

Lemma reflection_is_paired_witness :
  (exists pairs,
      find_symmetric_pairs offset_mirror [0; 0] [1; -1; 1] = Ok pairs /\
      In (0, -1) pairs) /\
  find_symmetric_pairs mirror [0] [1] = Ok [(0, 1)] /\
  find_symmetric_pairs offset_mirror [0] [1] = Ok [(0, 1)].
Proof.
  apply (reflection_is_paired offset_mirror [0; 0] [1; -1; 1] 0 (-1)
                              (mkAtom 0 [2; 3; 4]%float)
                              (mkAtom 1 [0; -1; -2]%float)).
  - split; [| reflexivity]. repeat constructor.
  - repeat constructor; vm_compute; congruence.
  - repeat constructor; vm_compute; congruence.
  - simpl. tauto.
  - simpl. tauto.
  - vm_compute. reflexivity.
  - vm_compute. reflexivity.
  - vm_compute. reflexivity.
Defined.

(** C8.  The table built for an index sequence is the outcome of one
    assignment per occurrence, so a key holds the displacement assigned
    to it last; it has one entry per distinct index, in the order of the
    first occurrences, holding the displacement of that index; and the
    result of the function is the same on the sequences without their
    repetitions, and has the same pairs on any sequences with the same
    elements. *)
Theorem last_write_wins (slab : Atoms) (s : list Z) (table : dict vec3) :
  fill_distances slab s = Ok table ->
  (exists ds,
      traverse (displacement slab) s = Ok ds /\
      table = write_all (combine s ds) [] /\
      forall k, lookup table k = last_write (combine s ds) k) /\
  NoDup (keys table) /\
  keys table = distinct s /\
  (forall k, In k s ->
             exists d, lookup table k = Some d /\
                       displacement slab k = Ok d) /\
  (forall other,
      find_symmetric_pairs slab s other =
      find_symmetric_pairs slab (distinct s) other /\
      find_symmetric_pairs slab other s =
      find_symmetric_pairs slab other (distinct s)) /\
  (forall s' other,
      (forall k, In k s <-> In k s') ->
      same_pairs (find_symmetric_pairs slab s other)
                 (find_symmetric_pairs slab s' other) /\
      same_pairs (find_symmetric_pairs slab other s)
                 (find_symmetric_pairs slab other s')).
Proof.
  intros E.
  assert (Et : traverse (entry slab) (distinct s) = Ok table)
    by now rewrite <- fill_distances_distinct.
  destruct (traverse_entry_keys _ _ _ Et) as [Hkeys Hvals].
  fold (keys table) in Hkeys.
  split; [| split; [| split; [| split; [| split]]]].
  - unfold fill_distances in E. rewrite fill_distances_writes in E.
    destruct (traverse (displacement slab) s) as [ds |]; [| discriminate].
    simpl in E. injection E as <-. exists ds.
    split; [reflexivity |]. split; [reflexivity |].
    intros k. rewrite lookup_write_all.
    now destruct (last_write (combine s ds) k).
  - rewrite Hkeys. apply distinct_NoDup.
  - exact Hkeys.
  - intros k Hk.
    destruct (In_lookup table k) as [d Hd].
    { rewrite Hkeys. now apply distinct_In. }
    exists d. split; [exact Hd |]. apply Hvals. now apply lookup_In.
  - intros other. rewrite !find_symmetric_pairs_tables.
    now rewrite !distinct_idempotent.
  - intros s' other Hs.
    split; apply find_symmetric_pairs_same_elements; tauto.
Qed.

Lemma last_write_wins_witness :
  (exists ds,
      traverse (displacement mirror) [0; 1; 0] = Ok ds /\
      [(0, (1, 2, 3)%float); (1, (-1, -2, -3)%float)] =
      write_all (combine [0; 1; 0] ds) [] /\
      forall k,
        lookup [(0, (1, 2, 3)%float); (1, (-1, -2, -3)%float)] k =
        last_write (combine [0; 1; 0] ds) k) /\
  NoDup (keys [(0, (1, 2, 3)%float); (1, (-1, -2, -3)%float)]) /\
  keys [(0, (1, 2, 3)%float); (1, (-1, -2, -3)%float)] =
  distinct [0; 1; 0] /\
  (forall k, In k [0; 1; 0] ->
             exists d,
               lookup [(0, (1, 2, 3)%float); (1, (-1, -2, -3)%float)] k =
               Some d /\
               displacement mirror k = Ok d) /\
  (forall other,
      find_symmetric_pairs mirror [0; 1; 0] other =
      find_symmetric_pairs mirror (distinct [0; 1; 0]) other /\
      find_symmetric_pairs mirror other [0; 1; 0] =
      find_symmetric_pairs mirror other (distinct [0; 1; 0])) /\
  (forall s' other,
      (forall k, In k [0; 1; 0] <-> In k s') ->
      same_pairs (find_symmetric_pairs mirror [0; 1; 0] other)
                 (find_symmetric_pairs mirror s' other) /\
      same_pairs (find_symmetric_pairs mirror other [0; 1; 0])
                 (find_symmetric_pairs mirror other s')).
Proof.
  apply (last_write_wins mirror [0; 1; 0]).
  vm_compute. reflexivity.
Defined.

(** C10.  The result holds no pair twice, whatever the repetitions in the
    two index sequences; and the call returns on a well-formed structure
    and indices it accepts. *)
Theorem no_pair_twice (slab : Atoms) (s1 s2 : list Z) :
  (forall pairs, find_symmetric_pairs slab s1 s2 = Ok pairs -> NoDup pairs) /\
  (well_formed_atoms slab ->
   Forall (in_range slab) s1 -> Forall (in_range slab) s2 ->
   exists pairs,
     find_symmetric_pairs slab s1 s2 = Ok pairs /\ NoDup pairs).
Proof.
  split.
  - intros pairs. apply find_symmetric_pairs_NoDup.
  - intros Hwf H1 H2.
    destruct (find_symmetric_pairs_total slab s1 s2 Hwf H1 H2) as [pairs E].
    exists pairs. split; [exact E |].
    now apply find_symmetric_pairs_NoDup in E.
Qed.

Lemma no_pair_twice_witness :
  NoDup [(0, 1); (0, -1); (-2, 1); (-2, -1)].
Proof.
  apply (proj1 (no_pair_twice mirror [0; 0; -2] [1; 1; 1; -1])).
  vm_compute. reflexivity.
Defined.


(** ** Further facts on binary64 arithmetic *)

Module FloatOrder.

Lemma SFleb_trans (x y z : spec_float) :
  SFleb x y = true -> SFleb y z = true -> SFleb x z = true.
Proof.
  unfold SFleb, SFcompare.
  destruct x as [[] | [] | | [] m1 e1], y as [[] | [] | | [] m2 e2],
           z as [[] | [] | | [] m3 e3];
    try discriminate; try reflexivity;
    change (Pos.compare_cont Eq) with Pos.compare;
    repeat match goal with
           | |- context [Z.compare ?a ?b] => destruct (Z.compare_spec a b)
           | |- context [Pos.compare ?a ?b] => destruct (Pos.compare_spec a b)
           end; simpl; try discriminate; try reflexivity; intros; exfalso; lia.
Qed.

Lemma leb_trans (x y z : float) :
  (x <=? y)%float = true -> (y <=? z)%float = true ->
  (x <=? z)%float = true.
Proof. rewrite !leb_spec. apply SFleb_trans. Qed.

(** An absolute value is below no negative number and no NaN. *)
Lemma abs_leb_nonneg (x t : float) :
  (abs x <=? t)%float = true -> (0 <=? t)%float = true.
Proof.
  rewrite !leb_spec, abs_spec. change (Prim2SF 0) with (S754_zero false).
  unfold SFleb, SFcompare.
  destruct (Prim2SF x) as [[] | [] | | [] m1 e1],
           (Prim2SF t) as [[] | [] | | [] m2 e2];
    simpl; try discriminate; try reflexivity.
Qed.

Lemma mul_opp_opp (x : float) : (- x * - x)%float = (x * x)%float.
Proof.
  apply Prim2SF_inj. rewrite !mul_spec, !opp_spec.
  destruct (Prim2SF x) as [[] | [] | | [] m e]; reflexivity.
Qed.

Lemma is_nan_spec (x : float) : is_nan x = true <-> Prim2SF x = S754_nan.
Proof.
  unfold is_nan. rewrite eqb_spec. unfold SFeqb, SFcompare.
  destruct (Prim2SF x) as [[] | [] | | [] m e]; simpl;
    rewrite ?Z.compare_refl;
    try (change (Pos.compare_cont Eq m m) with (Pos.compare m m));
    rewrite ?Pos.compare_refl; simpl; split;
    try discriminate; try reflexivity.
Qed.

Lemma nan_mul (x : float) : is_nan x = true -> is_nan (x * x) = true.
Proof. rewrite !is_nan_spec, mul_spec. now intros ->. Qed.

Lemma nan_add_l (x y : float) : is_nan x = true -> is_nan (x + y) = true.
Proof. rewrite !is_nan_spec, add_spec. now intros ->. Qed.

Lemma nan_add_r (x y : float) : is_nan y = true -> is_nan (x + y) = true.
Proof.
  rewrite !is_nan_spec, add_spec. intros ->.
  now destruct (Prim2SF x) as [[] | [] | | [] ? ?].
Qed.

Lemma nan_sub_l (x y : float) : is_nan x = true -> is_nan (x - y) = true.
Proof. rewrite !is_nan_spec, sub_spec. now intros ->. Qed.

Lemma nan_sub_r (x y : float) : is_nan y = true -> is_nan (x - y) = true.
Proof.
  rewrite !is_nan_spec, sub_spec. intros ->.
  now destruct (Prim2SF x) as [[] | [] | | [] ? ?].
Qed.

Lemma nan_sqrt (x : float) : is_nan x = true -> is_nan (sqrt x) = true.
Proof. rewrite !is_nan_spec, sqrt_spec. now intros ->. Qed.

Lemma nan_opp (x : float) : is_nan x = true -> is_nan (- x) = true.
Proof. rewrite !is_nan_spec, opp_spec. now intros ->. Qed.

Lemma nan_abs_leb (x t : float) :
  is_nan x = true -> (abs x <=? t)%float = false.
Proof. rewrite is_nan_spec, leb_spec, abs_spec. now intros ->. Qed.

Lemma nan_eqb_l (x y : float) : is_nan x = true -> (x =? y)%float = false.
Proof. rewrite is_nan_spec, eqb_spec. now intros ->. Qed.

Lemma nan_eqb_r (x y : float) : is_nan y = true -> (x =? y)%float = false.
Proof.
  rewrite is_nan_spec, eqb_spec. intros ->. unfold SFeqb, SFcompare.
  now destruct (Prim2SF x) as [[] | [] | | [] ? ?].
Qed.

(** [isclose] is false as soon as one of its arguments is a NaN. *)
Lemma isclose_nan_l (a b : float) : is_nan a = true -> isclose a b = false.
Proof.
  intros H. unfold isclose.
  rewrite (nan_abs_leb (a - b)) by now apply nan_sub_l.
  now rewrite nan_eqb_l.
Qed.

Lemma isclose_nan_r (a b : float) : is_nan b = true -> isclose a b = false.
Proof.
  intros H. unfold isclose.
  rewrite (nan_abs_leb (a - b)) by now apply nan_sub_r.
  now rewrite nan_eqb_r.
Qed.

End FloatOrder.

Module FloatSymmetry.

Lemma SFabs_binary_round_aux (s s' : bool) (m e : Z) (l : location) :
  SFabs (binary_round_aux prec emax s m e l) =
  SFabs (binary_round_aux prec emax s' m e l).
Proof.
  unfold binary_round_aux.
  destruct (shr_fexp prec emax m e l) as [mrs e'].
  destruct (shr_fexp prec emax _ e' loc_Exact) as [mrs2 e2].
  destruct (shr_m mrs2); [reflexivity | | reflexivity].
  destruct (Z.leb e2 _); reflexivity.
Qed.

Lemma SFabs_binary_normalize_opp (m e : Z) :
  SFabs (binary_normalize prec emax (- m) e false) =
  SFabs (binary_normalize prec emax m e false).
Proof.
  destruct m as [| p | p]; simpl; [reflexivity | |];
    unfold binary_round; destruct (shl_align _ _ _) as [mz ez];
    apply SFabs_binary_round_aux.
Qed.

Lemma SFabs_sub_swap (x y : spec_float) :
  SFabs (SF64sub x y) = SFabs (SF64sub y x).
Proof.
  destruct x as [[] | [] | | sx mx ex], y as [[] | [] | | sy my ey];
    try reflexivity.
  unfold SF64sub, SFsub. rewrite (Z.min_comm ey ex).
  rewrite <- SFabs_binary_normalize_opp. f_equal. f_equal. lia.
Qed.

(** The distance between two numbers does not depend on their order. *)
Lemma abs_sub_swap (x y : float) : abs (x - y) = abs (y - x).
Proof.
  apply Prim2SF_inj. rewrite !abs_spec, !sub_spec. apply SFabs_sub_swap.
Qed.

End FloatSymmetry.

(** ** Further facts on the runtime *)

Section Indexing.

Context {A : Type}.

Lemma getitem_nat (l : list A) (k : nat) (a : A) :
  nth_error l k = Some a -> getitem l (Z.of_nat k) = Ok a.
Proof.
  intros H. unfold getitem.
  assert (Hk : (k < List.length l)%nat)
    by (apply nth_error_Some; congruence).
  replace (Z.of_nat k <? 0) with false by (symmetry; apply Z.ltb_ge; lia).
  replace ((0 <=? Z.of_nat k) && (Z.of_nat k <? Z.of_nat (List.length l)))
    with true
    by (symmetry; apply andb_true_intro; split;
        [apply Z.leb_le | apply Z.ltb_lt]; lia).
  now rewrite Nat2Z.id, H.
Qed.

Lemma getitem_first3 (x y z : A) (rest : list A) :
  getitem (x :: y :: z :: rest) 0 = Ok x /\
  getitem (x :: y :: z :: rest) 1 = Ok y /\
  getitem (x :: y :: z :: rest) 2 = Ok z.
Proof.
  split; [| split].
  - now apply (getitem_nat (x :: y :: z :: rest) 0%nat x).
  - now apply (getitem_nat (x :: y :: z :: rest) 1%nat y).
  - now apply (getitem_nat (x :: y :: z :: rest) 2%nat z).
Qed.

Lemma getitem_exn (l : list A) (i : Z) (e : exn) :
  getitem l i = Raise e -> e = IndexError.
Proof.
  unfold getitem. destruct (_ && _).
  - destruct (nth_error l _); [discriminate | now intros [= <-]].
  - now intros [= <-].
Qed.

Lemma getitem_out_of_range (l : list A) (i : Z) :
  ~ (- Z.of_nat (List.length l) <= i < Z.of_nat (List.length l)) ->
  getitem l i = Raise IndexError.
Proof.
  intros H. unfold getitem.
  destruct ((0 <=? _) && (_ <? _)) eqn:E; [| reflexivity].
  apply andb_prop in E as [E1 E2].
  apply Z.leb_le in E1. apply Z.ltb_lt in E2.
  destruct (i <? 0) eqn:Ei;
    [apply Z.ltb_lt in Ei | apply Z.ltb_ge in Ei]; lia.
Qed.

(** A negative index and the index it stands for read the same element. *)
Lemma getitem_negative (l : list A) (i : Z) :
  0 <= i < Z.of_nat (List.length l) ->
  getitem l (i - Z.of_nat (List.length l)) = getitem l i.
Proof.
  intros H. unfold getitem.
  replace (i - Z.of_nat (List.length l) <? 0) with true
    by (symmetry; apply Z.ltb_lt; lia).
  replace (i <? 0) with false by (symmetry; apply Z.ltb_ge; lia).
  now replace (i - Z.of_nat (List.length l) + Z.of_nat (List.length l))
    with i by lia.
Qed.

End Indexing.

Section Traversals.

Context {A B : Type}.

Lemma traverse_ext (f g : A -> result B) (xs : list A) :
  (forall x, f x = g x) -> traverse f xs = traverse g xs.
Proof.
  intros H. induction xs as [| x xs IH]; simpl; [reflexivity |].
  now rewrite H, IH.
Qed.

Lemma traverse_Raise (f : A -> result B) (xs : list A) (e : exn) :
  traverse f xs = Raise e -> exists x, In x xs /\ f x = Raise e.
Proof.
  induction xs as [| x xs IH]; simpl; [discriminate |].
  destruct (f x) as [y | e'] eqn:E; simpl.
  - destruct (traverse f xs) as [ys | e'']; simpl; [discriminate |].
    intros [= ->]. destruct (IH eq_refl) as [x' [Hin Hx']]. eauto.
  - intros [= ->]. eauto.
Qed.

Lemma traverse_Exists_Raise (f : A -> result B) (xs : list A) (x : A)
      (e : exn) :
  In x xs -> f x = Raise e -> exists e', traverse f xs = Raise e'.
Proof.
  intros Hin Hx. destruct (traverse f xs) as [ys |] eqn:E; [| eauto].
  apply traverse_Ok in E.
  destruct (In_nth_error _ _ Hin) as [k Hk].
  destruct (Forall2_nth_error_l _ _ _ _ _ E Hk) as [y [_ Hy]]. congruence.
Qed.

End Traversals.

Lemma traverse_map {A B C : Type} (f : B -> result C) (h : A -> B)
      (xs : list A) :
  traverse f (map h xs) = traverse (fun x => f (h x)) xs.
Proof.
  induction xs as [| x xs IH]; simpl; [reflexivity |]. now rewrite IH.
Qed.

Lemma traverse_then_map {A B C : Type} (f : A -> result B) (h : B -> C)
      (xs : list A) :
  traverse (fun x => y <- f x ;; Ok (h y)) xs =
  (ys <- traverse f xs ;; Ok (map h ys)).
Proof.
  induction xs as [| x xs IH]; simpl; [reflexivity |].
  destruct (f x) as [y | e]; simpl; [| reflexivity].
  rewrite IH. now destruct (traverse f xs).
Qed.

(** ** Further facts on find_ads_slab_pairs *)

(** The row of an atom whose position can be read. *)
Lemma reference_row_explicit (loc : Atom) (x y z : float)
      (rest : list float) :
  position loc = x :: y :: z :: rest ->
  reference_row loc =
  Ok (mkRow (index loc)
            (sqrt (pow2 x + pow2 y + pow2 z))
            (sqrt (pow2 (x - 10) + pow2 (y - 10) + pow2 z))
            (sqrt (pow2 (x - 0) + pow2 (y - 10) + pow2 z))
            (sqrt (pow2 (x - 10) + pow2 (y - 0) + pow2 z))).
Proof.
  intros Hpos.
  unfold reference_row, distance_0, distance_1, distance_2, distance_3.
  rewrite Hpos.
  destruct (getitem_first3 x y z rest) as [-> [-> ->]]. cbn [bind].
  rewrite !FloatFacts.math_sqrt_sum_of_squares. reflexivity.
Qed.

Lemma reference_row_cases (loc : Atom) :
  (readable loc /\ exists r, reference_row loc = Ok r) \/
  (short loc /\ reference_row loc = Raise IndexError).
Proof.
  unfold readable, short. destruct loc as [i p].
  destruct p as [| x [| y [| z rest]]]; cbn [position List.length].
  - right. split; [lia | reflexivity].
  - right. split; [lia | reflexivity].
  - right. split; [lia | reflexivity].
  - left. split; [lia |]. eexists.
    now apply (reference_row_explicit _ x y z rest).
Qed.

Lemma reference_rows_exn (structure : list Atom) (e : exn) :
  reference_rows structure = Raise e -> e = IndexError.
Proof.
  rewrite reference_rows_traverse. intros H.
  apply traverse_Raise in H as [loc [_ H]].
  destruct (reference_row_cases loc) as [[_ [r Hr]] | [_ Hr]]; congruence.
Qed.

Lemma reference_rows_short (structure : list Atom) :
  Exists short structure -> reference_rows structure = Raise IndexError.
Proof.
  intros H. apply Exists_exists in H as [loc [Hin Hshort]].
  assert (Hr : reference_row loc = Raise IndexError).
  { destruct (reference_row_cases loc) as [[Hread _] | [_ Hr]];
      [unfold readable, short in *; lia | exact Hr]. }
  rewrite reference_rows_traverse.
  destruct (traverse_Exists_Raise _ _ _ _ Hin Hr) as [e He].
  rewrite He. f_equal. apply (reference_rows_exn structure).
  now rewrite reference_rows_traverse.
Qed.

Lemma reference_rows_readable (structure : list Atom) :
  Forall readable structure -> exists rows, reference_rows structure = Ok rows.
Proof.
  intros H. rewrite reference_rows_traverse. apply traverse_total.
  eapply Forall_impl; [| exact H]. intros loc Hloc.
  destruct (reference_row_cases loc) as [[_ Hr] | [Hshort _]];
    [exact Hr | unfold readable, short in *; lia].
Qed.

Lemma reference_row_cut3 (loc : Atom) :
  reference_row (cut3 loc) = reference_row loc.
Proof.
  destruct loc as [i p]. unfold cut3. cbn [position index].
  destruct p as [| x [| y [| z rest]]]; try reflexivity.
  cbn [firstn].
  rewrite (reference_row_explicit (mkAtom i [x; y; z]) x y z [] eq_refl).
  now rewrite (reference_row_explicit
                 (mkAtom i (x :: y :: z :: rest)) x y z rest eq_refl).
Qed.

(** X1.  The only exception is [IndexError]: it is raised when an atom of
    [slab] or of [ads] has fewer than three coordinates, and the call
    returns when every atom has at least three.  The coordinates after the
    third are ignored: the outcome is the same on the positions cut to
    three coordinates. *)
Theorem index_error_on_short_position (slab ads : list Atom)
        (difference_tol : float) :
  (Forall readable slab -> Forall readable ads ->
   exists pair, find_ads_slab_pairs slab ads difference_tol = Ok pair) /\
  (Exists short (slab ++ ads) ->
   find_ads_slab_pairs slab ads difference_tol = Raise IndexError) /\
  find_ads_slab_pairs (map cut3 slab) (map cut3 ads) difference_tol =
  find_ads_slab_pairs slab ads difference_tol.
Proof.
  split; [| split].
  - intros Hs Ha.
    destruct (reference_rows_readable slab Hs) as [srows Es].
    destruct (reference_rows_readable ads Ha) as [arows Ea].
    rewrite (find_ads_slab_pairs_rows _ _ _ _ _ Es Ea). eauto.
  - intros H. unfold find_ads_slab_pairs.
    destruct (reference_rows slab) as [srows | e] eqn:Es; cbn [bind].
    + apply Exists_app in H as [H | H].
      * rewrite (reference_rows_short slab H) in Es. discriminate.
      * now rewrite (reference_rows_short ads H).
    + f_equal. now apply (reference_rows_exn slab).
  - assert (H : forall structure,
               reference_rows (map cut3 structure) =
               reference_rows structure).
    { intros structure. rewrite !reference_rows_traverse, traverse_map.
      apply traverse_ext. apply reference_row_cut3. }
    unfold find_ads_slab_pairs. now rewrite !H.
Qed.

Lemma index_error_on_short_position_witness :
  (exists pair, find_ads_slab_pairs scenario_slab long_ads 0.3 = Ok pair) /\
  find_ads_slab_pairs [] short_atom 0.3 = Raise IndexError /\
  find_ads_slab_pairs (map cut3 scenario_slab) (map cut3 long_ads) 0.3 =
  find_ads_slab_pairs scenario_slab long_ads 0.3.
Proof.
  split; [| split].
  - apply (proj1 (index_error_on_short_position scenario_slab long_ads 0.3));
      repeat constructor; unfold readable; simpl; lia.
  - apply (proj1 (proj2 (index_error_on_short_position [] short_atom 0.3))).
    apply Exists_cons_hd. unfold short. simpl. lia.
  - apply (proj2 (proj2 (index_error_on_short_position
                           scenario_slab long_ads 0.3))).
Defined.

Lemma reference_row_inv (loc : Atom) (r : row) :
  reference_row loc = Ok r ->
  exists x y z rest,
    position loc = x :: y :: z :: rest /\
    r = mkRow (index loc)
              (sqrt (pow2 x + pow2 y + pow2 z))
              (sqrt (pow2 (x - 10) + pow2 (y - 10) + pow2 z))
              (sqrt (pow2 (x - 0) + pow2 (y - 10) + pow2 z))
              (sqrt (pow2 (x - 10) + pow2 (y - 0) + pow2 z)).
Proof.
  intros H.
  destruct (reference_row_cases loc) as [[Hread _] | [_ Hr]];
    [| congruence].
  unfold readable in Hread.
  destruct (position loc) as [| x [| y [| z rest]]] eqn:Hpos;
    simpl in Hread; try lia.
  exists x, y, z, rest. split; [reflexivity |].
  rewrite (reference_row_explicit loc x y z rest Hpos) in H.
  now injection H.
Qed.

Lemma traverse_of_Forall2 {A B : Type} (f : A -> result B) (xs : list A)
      (ys : list B) :
  Forall2 (fun x y => f x = Ok y) xs ys -> traverse f xs = Ok ys.
Proof.
  induction 1 as [| x y xs ys Hxy _ IH]; simpl; [reflexivity |].
  now rewrite Hxy, IH.
Qed.

Lemma reference_row_mirror_z (loc : Atom) :
  reference_row (mirror_z loc) = reference_row loc.
Proof.
  destruct loc as [i p]. destruct p as [| x [| y [| z rest]]];
    try reflexivity.
  unfold mirror_z. cbn [position index].
  rewrite (reference_row_explicit
             (mkAtom i (x :: y :: (- z)%float :: rest))
             x y (- z)%float rest eq_refl).
  rewrite (reference_row_explicit
             (mkAtom i (x :: y :: z :: rest)) x y z rest eq_refl).
  cbn [index]. unfold pow2. now rewrite FloatOrder.mul_opp_opp.
Qed.

(** X2.  The fingerprint does not tell an atom from its image in the plane
    z = 0, where the four reference points lie: the result is the same
    when any atoms of [slab] and of [ads] are replaced by their images. *)
Theorem mirror_images_are_not_told_apart (flip_slab flip_ads : Atom -> bool)
        (slab ads : list Atom) (difference_tol : float) :
  find_ads_slab_pairs (map (mirror_where flip_slab) slab)
                      (map (mirror_where flip_ads) ads) difference_tol =
  find_ads_slab_pairs slab ads difference_tol.
Proof.
  assert (H : forall flip structure,
             reference_rows (map (mirror_where flip) structure) =
             reference_rows structure).
  { intros flip structure. rewrite !reference_rows_traverse, traverse_map.
    apply traverse_ext. intros loc. unfold mirror_where.
    destruct (flip loc); [apply reference_row_mirror_z | reflexivity]. }
  unfold find_ads_slab_pairs. now rewrite !H.
Qed.

Lemma within_tol_needs_nonneg (difference_tol : float) (s_loc a_loc : row) :
  (0 <=? difference_tol)%float = false ->
  within_tol difference_tol s_loc a_loc = false.
Proof.
  intros H. unfold within_tol.
  destruct (abs (row_d0 s_loc - row_d0 a_loc) <=? difference_tol)%float
    eqn:E; [| reflexivity].
  apply FloatOrder.abs_leb_nonneg in E. congruence.
Qed.

(** X3.  A tolerance that is negative or a NaN never matches: every entry of
    the result carries the sentinel. *)
Theorem no_match_without_tolerance (slab ads : list Atom)
        (difference_tol : float) (pair : list (Z * value)) :
  (0 <=? difference_tol)%float = false ->
  find_ads_slab_pairs slab ads difference_tol = Ok pair ->
  Forall (fun entry => snd entry = Str "n") pair.
Proof.
  intros Htol E.
  destruct (find_ads_slab_pairs_inv _ _ _ _ E) as [srows [arows [_ [_ ->]]]].
  apply Forall_forall. intros entry Hin.
  apply in_map_iff in Hin as [r [<- _]]. simpl.
  apply choice_none. intros a_loc _.
  now apply within_tol_needs_nonneg.
Qed.

Lemma no_match_without_tolerance_witness :
  Forall (fun entry => snd entry = Str "n") [(0, Str "n"); (1, Str "n")].
Proof.
  apply (no_match_without_tolerance close_pair close_pair (-0.3)%float);
    vm_compute; reflexivity.
Defined.

Lemma nan_coordinate_row (loc : Atom) (r : row) :
  has_nan_coordinate loc = true -> reference_row loc = Ok r ->
  is_nan (row_d0 r) = true.
Proof.
  intros Hnan Hr.
  destruct (reference_row_inv loc r Hr) as [x [y [z [rest [Hpos ->]]]]].
  unfold has_nan_coordinate in Hnan. rewrite Hpos in Hnan.
  cbn [firstn existsb] in Hnan. rewrite orb_false_r in Hnan.
  cbn [row_d0]. apply FloatOrder.nan_sqrt. unfold pow2.
  apply orb_prop in Hnan as [Hx | Hnan];
    [| apply orb_prop in Hnan as [Hy | Hz]].
  - apply FloatOrder.nan_add_l, FloatOrder.nan_add_l.
    now apply FloatOrder.nan_mul.
  - apply FloatOrder.nan_add_l, FloatOrder.nan_add_r.
    now apply FloatOrder.nan_mul.
  - apply FloatOrder.nan_add_r. now apply FloatOrder.nan_mul.
Qed.

Lemma within_tol_nan_l (difference_tol : float) (s_loc a_loc : row) :
  is_nan (row_d0 s_loc) = true ->
  within_tol difference_tol s_loc a_loc = false.
Proof.
  intros H. unfold within_tol.
  now rewrite FloatOrder.nan_abs_leb by now apply FloatOrder.nan_sub_l.
Qed.

Lemma within_tol_nan_r (difference_tol : float) (s_loc a_loc : row) :
  is_nan (row_d0 a_loc) = true ->
  within_tol difference_tol s_loc a_loc = false.
Proof.
  intros H. unfold within_tol.
  now rewrite FloatOrder.nan_abs_leb by now apply FloatOrder.nan_sub_r.
Qed.

(** The rows of the atoms of [ads] without a NaN coordinate yield the same
    candidates as the rows of all its atoms. *)
Lemma rows_without_nan (ads : list Atom) (ads_positions : list row) :
  Forall2 (fun loc r => reference_row loc = Ok r) ads ads_positions ->
  exists kept,
    Forall2 (fun loc r => reference_row loc = Ok r)
            (filter (fun a => negb (has_nan_coordinate a)) ads) kept /\
    forall difference_tol s_loc,
      filter (within_tol difference_tol s_loc) kept =
      filter (within_tol difference_tol s_loc) ads_positions.
Proof.
  induction 1 as [| a r ads arows Hr _ [kept [Hkept Hsame]]].
  - exists []. split; [constructor | reflexivity].
  - simpl. destruct (has_nan_coordinate a) eqn:Ea; simpl.
    + exists kept. split; [exact Hkept |]. intros tol s. simpl.
      rewrite within_tol_nan_r by now apply (nan_coordinate_row a).
      apply Hsame.
    + exists (r :: kept). split; [now constructor |]. intros tol s. simpl.
      now rewrite Hsame.
Qed.

(** X4.  An atom with a NaN among its three coordinates takes part in no
    match: in [slab] its entry carries the sentinel, and in [ads] it can be
    left out without changing the result. *)
Theorem nan_coordinate_never_matches (slab ads : list Atom)
        (difference_tol : float) (pair : list (Z * value)) :
  find_ads_slab_pairs slab ads difference_tol = Ok pair ->
  (forall k s, nth_error slab k = Some s -> has_nan_coordinate s = true ->
               nth_error pair k = Some (index s, Str "n")) /\
  find_ads_slab_pairs
    slab (filter (fun a => negb (has_nan_coordinate a)) ads) difference_tol =
  Ok pair.
Proof.
  intros E.
  destruct (find_ads_slab_pairs_inv _ _ _ _ E) as [srows [arows [Fs [Fa ->]]]].
  split.
  - intros k s Hk Hnan.
    destruct (Forall2_nth_error_l _ _ _ _ _ Fs Hk) as [rs [_ Hrs]].
    rewrite (entry_of_nth _ _ _ _ _ _ _ Fs Hk Hrs). do 2 f_equal.
    apply choice_none. intros a_loc _.
    apply within_tol_nan_l. now apply (nan_coordinate_row s).
  - destruct (rows_without_nan ads arows Fa) as [kept [Fk Hsame]].
    rewrite (find_ads_slab_pairs_rows slab _ difference_tol srows kept).
    + f_equal. apply map_ext. intros s_loc. unfold choice.
      now rewrite Hsame.
    + rewrite reference_rows_traverse. now apply traverse_of_Forall2.
    + rewrite reference_rows_traverse. now apply traverse_of_Forall2.
Qed.

Lemma nan_coordinate_never_matches_witness :
  (forall k s, nth_error undefined_atom k = Some s ->
               has_nan_coordinate s = true ->
               nth_error [(0, Str "n")] k = Some (index s, Str "n")) /\
  find_ads_slab_pairs
    undefined_atom
    (filter (fun a => negb (has_nan_coordinate a)) undefined_atom) 0.3 =
  Ok [(0, Str "n")].
Proof.
  apply (nan_coordinate_never_matches undefined_atom undefined_atom 0.3).
  vm_compute. reflexivity.
Defined.

(** X5.  The atoms of [slab] are handled one by one: the call on two slabs
    put end to end returns exactly when the calls on each of them return,
    and its result is their two results put end to end. *)
Theorem slab_atoms_are_independent (slab1 slab2 ads : list Atom)
        (difference_tol : float) (pair : list (Z * value)) :
  find_ads_slab_pairs (slab1 ++ slab2) ads difference_tol = Ok pair <->
  exists pair1 pair2,
    find_ads_slab_pairs slab1 ads difference_tol = Ok pair1 /\
    find_ads_slab_pairs slab2 ads difference_tol = Ok pair2 /\
    pair = pair1 ++ pair2.
Proof.
  split.
  - intros E.
    destruct (find_ads_slab_pairs_inv _ _ _ _ E)
      as [srows [arows [Fs [Fa ->]]]].
    apply Forall2_app_inv_l in Fs as [rows1 [rows2 [F1 [F2 ->]]]].
    do 2 eexists. repeat split.
    + apply find_ads_slab_pairs_rows; rewrite reference_rows_traverse;
        apply traverse_of_Forall2; eassumption.
    + apply find_ads_slab_pairs_rows; rewrite reference_rows_traverse;
        apply traverse_of_Forall2; eassumption.
    + apply map_app.
  - intros [pair1 [pair2 [E1 [E2 ->]]]].
    destruct (find_ads_slab_pairs_inv _ _ _ _ E1)
      as [rows1 [arows [F1 [Fa ->]]]].
    destruct (find_ads_slab_pairs_inv _ _ _ _ E2)
      as [rows2 [arows' [F2 [Fa' ->]]]].
    rewrite <- (Forall2_functional _ _ _ _ Fa Fa').
    rewrite <- map_app.
    apply find_ads_slab_pairs_rows; rewrite reference_rows_traverse;
      apply traverse_of_Forall2; [now apply Forall2_app | exact Fa].
Qed.

(** X6.  Nothing makes the pairing one to one: two atoms of [slab] at the
    same position receive the same second element. *)
Theorem same_position_same_partner (slab ads : list Atom)
        (difference_tol : float) (pair : list (Z * value))
        (k k' : nat) (s s' : Atom) :
  find_ads_slab_pairs slab ads difference_tol = Ok pair ->
  nth_error slab k = Some s -> nth_error slab k' = Some s' ->
  position s = position s' ->
  exists v, nth_error pair k = Some (index s, v) /\
            nth_error pair k' = Some (index s', v).
Proof.
  intros E Hk Hk' Hpos.
  destruct (find_ads_slab_pairs_inv _ _ _ _ E) as [srows [arows [Fs [Fa ->]]]].
  destruct (Forall2_nth_error_l _ _ _ _ _ Fs Hk) as [rs [_ Hrs]].
  destruct (Forall2_nth_error_l _ _ _ _ _ Fs Hk') as [rs' [_ Hrs']].
  pose proof (reference_row_position s s' rs (eq_sym Hpos) Hrs) as Hrow.
  rewrite Hrs' in Hrow. injection Hrow as ->.
  exists (choice difference_tol arows rs). split.
  - apply (entry_of_nth _ _ _ _ _ _ _ Fs Hk Hrs).
  - rewrite (entry_of_nth _ _ _ _ _ _ _ Fs Hk' Hrs'). reflexivity.
Qed.

Lemma same_position_same_partner_witness :
  exists v, nth_error [(0, Str "n"); (1, Str "n"); (2, Str "n")] 0 =
            Some (0, v) /\
            nth_error [(0, Str "n"); (1, Str "n"); (2, Str "n")] 2 =
            Some (2, v).
Proof.
  apply (same_position_same_partner
           twin_slab raised_ads 0.3 _ 0 2
           (mkAtom 0 [0; 0; 0]%float) (mkAtom 2 [0; 0; 0]%float));
    vm_compute; reflexivity.
Defined.

Lemma reference_row_reindex (f : Z -> Z) (loc : Atom) :
  reference_row (reindex f loc) =
  (r <- reference_row loc ;; Ok (reindex_row f r)).
Proof.
  unfold reference_row.
  change (distance_0 (reindex f loc)) with (distance_0 loc).
  change (distance_1 (reindex f loc)) with (distance_1 loc).
  change (distance_2 (reindex f loc)) with (distance_2 loc).
  change (distance_3 (reindex f loc)) with (distance_3 loc).
  destruct (distance_0 loc); [| reflexivity].
  destruct (distance_1 loc); [| reflexivity].
  destruct (distance_2 loc); [| reflexivity].
  destruct (distance_3 loc); reflexivity.
Qed.

Lemma reference_rows_reindex (f : Z -> Z) (structure : list Atom) :
  reference_rows (map (reindex f) structure) =
  (rows <- reference_rows structure ;; Ok (map (reindex_row f) rows)).
Proof.
  rewrite !reference_rows_traverse, traverse_map.
  rewrite <- traverse_then_map. apply traverse_ext.
  apply reference_row_reindex.
Qed.

Lemma choice_reindex (f g : Z -> Z) (difference_tol : float)
      (ads_positions : list row) (s_loc : row) :
  choice difference_tol (map (reindex_row g) ads_positions)
         (reindex_row f s_loc) =
  reindex_value g (choice difference_tol ads_positions s_loc).
Proof.
  unfold choice. induction ads_positions as [| a rest IH]; [reflexivity |].
  simpl.
  change (within_tol difference_tol (reindex_row f s_loc) (reindex_row g a))
    with (within_tol difference_tol s_loc a).
  destruct (within_tol difference_tol s_loc a); [reflexivity | exact IH].
Qed.

(** X7.  Indices are carried, never compared: giving the atoms other
    indices changes the output by those indices and nothing else, the
    sentinel and the exceptions included. *)
Theorem indices_are_only_carried (f g : Z -> Z) (slab ads : list Atom)
        (difference_tol : float) :
  find_ads_slab_pairs (map (reindex f) slab) (map (reindex g) ads)
                      difference_tol =
  (pair <- find_ads_slab_pairs slab ads difference_tol ;;
   Ok (relabel f g pair)).
Proof.
  destruct (reference_rows slab) as [srows | e] eqn:Es.
  - destruct (reference_rows ads) as [arows | e] eqn:Ea.
    + rewrite (find_ads_slab_pairs_rows slab ads _ srows arows Es Ea).
      rewrite (find_ads_slab_pairs_rows
                 _ _ _ (map (reindex_row f) srows)
                 (map (reindex_row g) arows));
        try (rewrite reference_rows_reindex; now rewrite ?Es, ?Ea).
      cbn [bind]. f_equal. unfold relabel. rewrite !map_map.
      apply map_ext. intros s_loc. cbn [fst snd reindex_row row_index].
      now rewrite (choice_reindex f g).
    + unfold find_ads_slab_pairs.
      rewrite !reference_rows_reindex, Es, Ea. reflexivity.
  - unfold find_ads_slab_pairs.
    rewrite !reference_rows_reindex, Es. reflexivity.
Qed.

Lemma within_tol_wider (tol tol' : float) (s_loc a_loc : row) :
  (tol <=? tol')%float = true ->
  within_tol tol s_loc a_loc = true -> within_tol tol' s_loc a_loc = true.
Proof.
  intros Hle. unfold within_tol. intros H.
  apply andb_prop in H as [H H3]. apply andb_prop in H as [H H2].
  apply andb_prop in H as [H0 H1].
  now rewrite (FloatOrder.leb_trans _ _ _ H0 Hle),
              (FloatOrder.leb_trans _ _ _ H1 Hle),
              (FloatOrder.leb_trans _ _ _ H2 Hle),
              (FloatOrder.leb_trans _ _ _ H3 Hle).
Qed.

Lemma choice_matched (difference_tol : float) (ads_positions : list row)
      (s_loc a_loc : row) :
  In a_loc ads_positions -> within_tol difference_tol s_loc a_loc = true ->
  choice difference_tol ads_positions s_loc <> Str "n".
Proof.
  intros Hin Hw. unfold choice.
  destruct (filter _ ads_positions) as [| b rest] eqn:E; [| discriminate].
  assert (H : In a_loc (filter (within_tol difference_tol s_loc)
                               ads_positions))
    by (apply filter_In; auto).
  rewrite E in H. destruct H.
Qed.

(** X8.  A wider tolerance loses no match: an atom of [slab] matched under
    a tolerance is matched under every tolerance above it. *)
Theorem wider_tolerance_keeps_matches (slab ads : list Atom)
        (tol tol' : float) (pair : list (Z * value)) :
  (tol <=? tol')%float = true ->
  find_ads_slab_pairs slab ads tol = Ok pair ->
  exists pair',
    find_ads_slab_pairs slab ads tol' = Ok pair' /\
    forall k i v,
      nth_error pair k = Some (i, v) -> v <> Str "n" ->
      exists v', nth_error pair' k = Some (i, v') /\ v' <> Str "n".
Proof.
  intros Hle E.
  destruct (find_ads_slab_pairs_inv _ _ _ _ E) as [srows [arows [Fs [Fa ->]]]].
  eexists. split.
  - apply find_ads_slab_pairs_rows; rewrite reference_rows_traverse;
      apply traverse_of_Forall2; eassumption.
  - intros k i v Hk Hv. rewrite nth_error_map in *.
    destruct (nth_error srows k) as [r |]; [| discriminate].
    simpl in *. injection Hk as <- <-.
    eexists. split; [reflexivity |].
    destruct (choice_cases tol arows r) as [Hs | [a [Hin [Hw _]]]];
      [contradiction |].
    apply (choice_matched tol' arows r a Hin).
    now apply (within_tol_wider tol tol').
Qed.

Lemma wider_tolerance_keeps_matches_witness :
  exists pair',
    find_ads_slab_pairs close_pair close_pair 0.3 = Ok pair' /\
    forall k i v,
      nth_error [(0, Int 0); (1, Int 1)] k = Some (i, v) -> v <> Str "n" ->
      exists v', nth_error pair' k = Some (i, v') /\ v' <> Str "n".
Proof.
  apply (wider_tolerance_keeps_matches close_pair close_pair 0.01 0.3);
    vm_compute; reflexivity.
Defined.

Lemma within_tol_sym (difference_tol : float) (s_loc a_loc : row) :
  within_tol difference_tol s_loc a_loc =
  within_tol difference_tol a_loc s_loc.
Proof.
  unfold within_tol.
  now rewrite (FloatSymmetry.abs_sub_swap (row_d0 s_loc)),
              (FloatSymmetry.abs_sub_swap (row_d1 s_loc)),
              (FloatSymmetry.abs_sub_swap (row_d2 s_loc)),
              (FloatSymmetry.abs_sub_swap (row_d3 s_loc)).
Qed.

(** X9.  Matches are mutual: when [slab] and [ads] change places the call
    returns too, and the atom of [ads] that an atom of [slab] was paired
    with is itself matched. *)
Theorem partner_is_matched_in_return (slab ads : list Atom)
        (difference_tol : float) (pair : list (Z * value)) :
  find_ads_slab_pairs slab ads difference_tol = Ok pair ->
  exists back,
    find_ads_slab_pairs ads slab difference_tol = Ok back /\
    forall k i v,
      nth_error pair k = Some (i, v) -> v <> Str "n" ->
      exists k' a w,
        nth_error ads k' = Some a /\ v = Int (index a) /\
        nth_error back k' = Some (index a, w) /\ w <> Str "n".
Proof.
  intros E.
  destruct (find_ads_slab_pairs_inv _ _ _ _ E) as [srows [arows [Fs [Fa ->]]]].
  eexists. split.
  - apply find_ads_slab_pairs_rows; rewrite reference_rows_traverse;
      apply traverse_of_Forall2; eassumption.
  - intros k i v Hk Hv. rewrite nth_error_map in Hk.
    destruct (nth_error srows k) as [rs |] eqn:Hrs; [| discriminate].
    simpl in Hk. injection Hk as <- <-.
    destruct (choice_cases difference_tol arows rs)
      as [Hs | [ra [Hin [Hw Hc]]]]; [contradiction |].
    destruct (In_nth_error _ _ Hin) as [k' Hk'].
    destruct (Forall2_nth_error_r _ _ _ _ _ Fa Hk') as [a [Ha Hrow]].
    exists k', a, (choice difference_tol srows ra). repeat split.
    + exact Ha.
    + now rewrite Hc, (reference_row_index a ra Hrow).
    + apply (entry_of_nth _ _ _ _ _ _ _ Fa Ha Hrow).
    + apply (choice_matched difference_tol srows ra rs).
      * eapply nth_error_In. exact Hrs.
      * now rewrite within_tol_sym.
Qed.

Lemma partner_is_matched_in_return_witness :
  exists back,
    find_ads_slab_pairs mirrored_ads twin_slab 0.6 = Ok back /\
    forall k i v,
      nth_error [(0, Int 4); (1, Str "n"); (2, Int 4)] k = Some (i, v) ->
      v <> Str "n" ->
      exists k' a w,
        nth_error mirrored_ads k' = Some a /\ v = Int (index a) /\
        nth_error back k' = Some (index a, w) /\ w <> Str "n".
Proof.
  apply (partner_is_matched_in_return twin_slab mirrored_ads 0.6).
  vm_compute. reflexivity.
Defined.

(** ** Further facts on find_symmetric_pairs *)

Lemma displacement_exn (slab : Atoms) (dex : Z) (e : exn) :
  displacement slab dex = Raise e -> e = IndexError.
Proof.
  unfold displacement. intros H.
  repeat match type of H with
         | context [bind (getitem ?l ?i) _] =>
             let E := fresh "E" in
             destruct (getitem l i) eqn:E; cbn [bind] in H;
             [| injection H as <-; exact (getitem_exn _ _ _ E)]
         end.
  discriminate.
Qed.

Lemma displacement_out_of_range (slab : Atoms) (dex : Z) :
  ~ in_range slab dex -> displacement slab dex = Raise IndexError.
Proof.
  intros H. unfold displacement.
  now rewrite (getitem_out_of_range (atoms slab) dex H).
Qed.

Lemma find_symmetric_pairs_exn (slab : Atoms) (s1 s2 : list Z) (e : exn) :
  find_symmetric_pairs slab s1 s2 = Raise e -> e = IndexError.
Proof.
  rewrite find_symmetric_pairs_tables. intros H.
  assert (Hentry : forall s, traverse (entry slab) s = Raise e ->
                             e = IndexError).
  { intros s Hs. apply traverse_Raise in Hs as [k [_ Hk]].
    unfold entry in Hk.
    destruct (displacement slab k) as [d | e'] eqn:Ed; [discriminate |].
    simpl in Hk. injection Hk as <-. now apply (displacement_exn slab k). }
  destruct (traverse (entry slab) (distinct s1)) as [t1 | e1] eqn:E1.
  - destruct (traverse (entry slab) (distinct s2)) as [t2 | e2] eqn:E2;
      [discriminate |].
    simpl in H. injection H as ->. now apply (Hentry (distinct s2)).
  - simpl in H. injection H as ->. now apply (Hentry (distinct s1)).
Qed.

(** X10.  The only exception is [IndexError], and an index of either
    sequence that the structure does not accept raises it, whatever the
    other sequence holds. *)
Theorem index_error_on_unknown_index (slab : Atoms) (s1 s2 : list Z) :
  (forall e, find_symmetric_pairs slab s1 s2 = Raise e -> e = IndexError) /\
  (Exists (fun dex => ~ in_range slab dex) (s1 ++ s2) ->
   find_symmetric_pairs slab s1 s2 = Raise IndexError).
Proof.
  split; [intros e; apply find_symmetric_pairs_exn |].
  intros H. apply Exists_exists in H as [k [Hin Hk]].
  destruct (find_symmetric_pairs slab s1 s2) as [pairs | e] eqn:E.
  - exfalso.
    destruct (proj1 (find_symmetric_pairs_Ok slab s1 s2)
                    (ex_intro _ pairs E) k) as [d Hd].
    + now apply in_app_or.
    + rewrite (displacement_out_of_range slab k Hk) in Hd. discriminate.
  - f_equal. now apply (find_symmetric_pairs_exn slab s1 s2).
Qed.

Lemma index_error_on_unknown_index_witness :
  find_symmetric_pairs mirror [] [0; 2] = Raise IndexError.
Proof.
  apply (proj2 (index_error_on_unknown_index mirror [] [0; 2])).
  apply Exists_cons_tl, Exists_cons_hd. unfold in_range. simpl. lia.
Defined.

Lemma distinct_length (s : list Z) :
  (List.length (distinct s) <= List.length s)%nat.
Proof.
  induction s as [| k s IH]; simpl; [lia |].
  pose proof (filter_length_le (fun j => negb (j =? k)) (distinct s)). lia.
Qed.

Lemma comprehension_length {A B C : Type} (p : A -> B -> bool)
      (g : A -> B -> C) (t1 : list A) (t2 : list B) :
  (List.length (flat_map (fun x => map (g x) (filter (p x) t2)) t1)
   <= List.length t1 * List.length t2)%nat.
Proof.
  induction t1 as [| x t1 IH]; simpl; [lia |].
  rewrite length_app, length_map.
  pose proof (filter_length_le (p x) t2). lia.
Qed.

(** X11.  Every pair of the result is made of an index of the first
    sequence and an index of the second, and the result has at most as many
    pairs as the product of the two lengths: none when a sequence is
    empty. *)
Theorem pairs_come_from_the_sequences (slab : Atoms) (s1 s2 : list Z)
        (pairs : list (Z * Z)) :
  find_symmetric_pairs slab s1 s2 = Ok pairs ->
  (forall i j, In (i, j) pairs -> In i s1 /\ In j s2) /\
  (List.length pairs <= List.length s1 * List.length s2)%nat /\
  (s1 = [] \/ s2 = [] -> pairs = []).
Proof.
  intros E.
  assert (Hlen : (List.length pairs
                  <= List.length s1 * List.length s2)%nat).
  { rewrite find_symmetric_pairs_tables in E.
    destruct (traverse (entry slab) (distinct s1)) as [t1 |] eqn:E1;
      [| discriminate].
    destruct (traverse (entry slab) (distinct s2)) as [t2 |] eqn:E2;
      [| discriminate].
    simpl in E. injection E as <-.
    pose proof (comprehension_length
                  (fun first second : Z * vec3 =>
                     symmetric (snd first) (snd second))
                  (fun first second : Z * vec3 => (fst first, fst second))
                  t1 t2) as H.
    apply traverse_Ok, Forall2_length_eq in E1, E2.
    pose proof (distinct_length s1). pose proof (distinct_length s2).
    nia. }
  split; [| split; [exact Hlen |]].
  - intros i j Hin.
    apply (find_symmetric_pairs_In _ _ _ _ i j E) in Hin
      as [di [dj [Hi [Hj _]]]]. auto.
  - intros [-> | ->]; simpl in Hlen;
      destruct pairs; try reflexivity; simpl in Hlen; lia.
Qed.

Lemma pairs_come_from_the_sequences_witness :
  (forall i j, In (i, j) [(0, 1); (0, 2)] -> In i [0; 0] /\ In j [1; 2; 1]) /\
  (List.length [(0, 1); (0, 2)]
   <= List.length [0; 0] * List.length [1; 2; 1])%nat /\
  ([0; 0] = [] \/ [1; 2; 1] = [] -> [(0, 1); (0, 2)] = []).
Proof.
  apply (pairs_come_from_the_sequences double_mirror [0; 0] [1; 2; 1]).
  vm_compute. reflexivity.
Defined.

Lemma displacement_negative (slab : Atoms) (dex : Z) :
  0 <= dex < Z.of_nat (List.length (atoms slab)) ->
  displacement slab (dex - Z.of_nat (List.length (atoms slab))) =
  displacement slab dex.
Proof.
  intros H. unfold displacement. now rewrite getitem_negative.
Qed.

(** X12.  A negative index counts from the end and is reported as it was
    given: it has the displacement of the index it stands for, so the two
    are found in the same pairs, each under its own number. *)
Theorem negative_index_is_an_alias (slab : Atoms) (s1 s2 : list Z)
        (pairs : list (Z * Z)) (dex : Z) :
  find_symmetric_pairs slab s1 s2 = Ok pairs ->
  0 <= dex < Z.of_nat (List.length (atoms slab)) ->
  displacement slab (dex - Z.of_nat (List.length (atoms slab))) =
  displacement slab dex /\
  (In dex s1 -> In (dex - Z.of_nat (List.length (atoms slab))) s1 ->
   forall j,
     In (dex, j) pairs <->
     In (dex - Z.of_nat (List.length (atoms slab)), j) pairs) /\
  (In dex s2 -> In (dex - Z.of_nat (List.length (atoms slab))) s2 ->
   forall i,
     In (i, dex) pairs <->
     In (i, dex - Z.of_nat (List.length (atoms slab))) pairs).
Proof.
  intros E Hdex.
  pose proof (displacement_negative slab dex Hdex) as Hneg.
  split; [exact Hneg |]. split.
  - intros H1 H1' j.
    rewrite !(find_symmetric_pairs_In _ _ _ _ _ j E).
    split; intros [di [dj [_ [Hj [Hdi H]]]]]; exists di, dj;
      (split; [assumption |]); (split; [exact Hj |]);
      (split; [congruence | exact H]).
  - intros H2 H2' i.
    rewrite !(find_symmetric_pairs_In _ _ _ _ i _ E).
    split; intros [di [dj [Hi [_ [Hdi [Hdj H]]]]]]; exists di, dj;
      (split; [exact Hi |]); (split; [assumption |]);
      (split; [exact Hdi |]); (split; [congruence | exact H]).
Qed.

Lemma negative_index_is_an_alias_witness :
  displacement mirror (0 - Z.of_nat (List.length (atoms mirror))) =
  displacement mirror 0 /\
  (In 0 [0; -2] -> In (0 - Z.of_nat (List.length (atoms mirror))) [0; -2] ->
   forall j,
     In (0, j) [(0, 1); (0, -1); (-2, 1); (-2, -1)] <->
     In (0 - Z.of_nat (List.length (atoms mirror)), j)
        [(0, 1); (0, -1); (-2, 1); (-2, -1)]) /\
  (In 0 [1; -1] -> In (0 - Z.of_nat (List.length (atoms mirror))) [1; -1] ->
   forall i,
     In (i, 0) [(0, 1); (0, -1); (-2, 1); (-2, -1)] <->
     In (i, 0 - Z.of_nat (List.length (atoms mirror)))
        [(0, 1); (0, -1); (-2, 1); (-2, -1)]).
Proof.
  apply (negative_index_is_an_alias mirror [0; -2] [1; -1]).
  - vm_compute. reflexivity.
  - simpl. lia.
Defined.

Lemma symmetric_nan_l (d1 d2 : vec3) :
  nan_vec d1 = true -> symmetric d1 d2 = false.
Proof.
  destruct d1 as [[x1 y1] z1], d2 as [[x2 y2] z2].
  unfold nan_vec, symmetric. intros H.
  apply orb_prop in H as [H | H]; [apply orb_prop in H as [H | H] |];
    rewrite (FloatOrder.isclose_nan_l _ _ H);
    now rewrite ?andb_false_r.
Qed.

Lemma symmetric_nan_r (d1 d2 : vec3) :
  nan_vec d2 = true -> symmetric d1 d2 = false.
Proof.
  destruct d1 as [[x1 y1] z1], d2 as [[x2 y2] z2].
  unfold nan_vec, symmetric. rewrite !FloatFacts.mul_neg_one. intros H.
  apply orb_prop in H as [H | H]; [apply orb_prop in H as [H | H] |];
    rewrite (FloatOrder.isclose_nan_r _ _ (FloatOrder.nan_opp _ H));
    now rewrite ?andb_false_r.
Qed.

(** X13.  An atom whose displacement has a NaN coordinate is in no pair,
    neither as first nor as second element. *)
Theorem nan_displacement_is_never_paired (slab : Atoms) (s1 s2 : list Z)
        (pairs : list (Z * Z)) (dex : Z) (d : vec3) :
  find_symmetric_pairs slab s1 s2 = Ok pairs ->
  displacement slab dex = Ok d -> nan_vec d = true ->
  forall other, ~ In (dex, other) pairs /\ ~ In (other, dex) pairs.
Proof.
  intros E Hd Hnan other. split; intros Hin;
    apply (find_symmetric_pairs_In _ _ _ _ _ _ E) in Hin
      as [di [dj [_ [_ [Hdi [Hdj Hsym]]]]]].
  - rewrite Hd in Hdi. injection Hdi as <-.
    now rewrite symmetric_nan_l in Hsym.
  - rewrite Hd in Hdj. injection Hdj as <-.
    now rewrite symmetric_nan_r in Hsym.
Qed.

Lemma nan_displacement_is_never_paired_witness :
  ~ In (0, 1) (@nil (Z * Z)) /\ ~ In (1, 0) (@nil (Z * Z)).
Proof.
  apply (nan_displacement_is_never_paired
           undefined_mirror [0; 1] [0; 1] [] 0 (nan, 2, 3)%float);
    vm_compute; reflexivity.
Defined.
